(** * gov-airdrop: the snapshot pipeline of [scripts/snapshot.py]

    A shallow embedding of the balance pipeline ([transfers_to_balances],
    [step_01], [step_04], [step_05], [step_06]) and of the [MerkleTree]
    class, with the properties of the specification stated about it.

    Conventions.
    - Python [int] is [Z]; addresses and token names are [string].
    - A [dict] or [Counter] keyed by address is a [gmap string Z] wherever
      only lookups, sums and per-key updates are observed; the items of a
      dict whose iteration order is observable are a list of pairs.
    - An exception is a value of [exn]; code that may raise lives in the
      [result] monad.
    - The chain node, the pool probes and keccak are external: they are
      section variables. *)

From stdpp Require Import base option list sorting gmap strings fin_maps.
From Stdlib Require Import ZArith Lia.
From Stdlib.Strings Require Byte.
From Equations Require Import Equations.

Local Open Scope Z_scope.

(** ** Exceptions *)

Inductive exn : Type :=
| AssertionError (msg : string)
| ZeroDivisionError
| ValueError
| KeyError (key : string)
| IndexError.

Inductive result (A : Type) : Type :=
| Ok (a : A)
| Raise (e : exn).
Arguments Ok {A} a.
Arguments Raise {A} e.

Global Instance result_ret : MRet result := λ A a, Ok a.
Global Instance result_bind : MBind result := λ A B f r,
  match r with
  | Ok a => f a
  | Raise e => Raise e
  end.

(** [assert cond, msg] *)
Definition assert (cond : bool) (msg : string) : result unit :=
  if cond then Ok tt else Raise (AssertionError msg).

(** ** [fractions.Fraction], as far as the pipeline uses it *)

Record Fraction : Type := mkFraction { numerator : Z; denominator : Z }.

(** [Fraction(numerator, denominator)]: rejects a zero denominator, then
    divides both parts by their gcd, the gcd taking the sign of the
    denominator. *)
Definition Fraction_new (n d : Z) : result Fraction :=
  if decide (d = 0) then Raise ZeroDivisionError
  else
    let g := Z.gcd n d in
    let g := if d <? 0 then - g else g in
    Ok (mkFraction (n / g) (d / g)).

(** [a * b] for a Fraction [a] and an int [b] (an int has denominator 1). *)
Definition Fraction_mul_int (a : Fraction) (b : Z) : result Fraction :=
  Fraction_new (numerator a * b) (denominator a * 1).

(** [int(a)], that is [a.__trunc__()]. *)
Definition Fraction_int (a : Fraction) : Z :=
  if numerator a <? 0 then - (- numerator a / denominator a)
  else numerator a / denominator a.

(** [int(Fraction(part, whole) * amount)], the expression shared by
    [step_04] and [step_06]. *)
Definition pro_rata_share (part whole amount : Z) : result Z :=
  f ← Fraction_new part whole;
  p ← Fraction_mul_int f amount;
  mret (Fraction_int p).

(** ** Dictionaries *)

(** [sum(d.values())] *)
Definition sum_values (d : gmap string Z) : Z :=
  map_fold (λ _ v acc, acc + v) 0 d.

(** [valfilter(pred, d)] *)
Definition valfilter (pred : Z → bool) (d : gmap string Z) : gmap string Z :=
  filter (λ kv, pred kv.2 = true) d.

(** [{user: f(value) for user, value in d.items()}] where [f] may raise. *)
Definition dict_comp (f : Z → result Z) (d : gmap string Z)
    : result (gmap string Z) :=
  map_fold (λ k v acc, out ← acc; y ← f v; mret (<[k:=y]> out)) (Ok ∅) d.

(** [min(d.values())]: raises ValueError on an empty dict. *)
Definition min_values (d : gmap string Z) : result Z :=
  match map_fold (λ _ v acc, Some (from_option (Z.min v) v acc)) None d with
  | Some x => Ok x
  | None => Raise ValueError
  end.

(** ** Constants *)

(** [Wei('n ether')] *)
Definition Wei_ether (n : Z) : Z := n * 10 ^ 18.

Definition DISTRIBUTION_AMOUNT : Z := Wei_ether 8000000.
Definition START_BLOCK : Z := 10950650.
Definition SNAPSHOT_BLOCK : Z := 10954410.
Definition ZERO_ADDRESS : string := "0x0000000000000000000000000000000000000000".

Definition TOKENS : list (string * string) :=
  [ ("EMN", "0x5ade7ae8660293f2ebfcefaba91d141d72d221e8");
    ("eCRV", "0xb387e90367f1e621e656900ed2a762dc7d71da8c");
    ("eLINK", "0xe4ffd682380c571a6a07dd8f20b402412e02830e");
    ("eAAVE", "0xc08f38f43adb64d16fe9f9efcc2949d9eddec198");
    ("eYFI", "0xed35197cadf01fcbfe6cfc11081f299cffb095bf");
    ("eSNX", "0xd77c2ab1cd0faa4b79e16a0e7472cb222a9ee175") ]%string.

(** ** [step_06]: pro-rata distribution *)

(** The body of [step_06] for a distribution amount [amount] and a dust
    threshold [threshold]. *)
Definition pro_rata_distribution (amount threshold : Z)
    (balances : gmap string Z) : result (gmap string Z) :=
  let total := sum_values balances in
  let balances := valfilter (λ value, threshold <=? value) balances in
  pro_rata ← dict_comp (λ balance, pro_rata_share balance total amount) balances;
  assert (sum_values pro_rata <=? amount) "extravagant expenses ser";;
  mret pro_rata.

Definition step_06 (balances : gmap string Z) : result (gmap string Z) :=
  pro_rata_distribution DISTRIBUTION_AMOUNT (Wei_ether 1) balances.

(** The allocation the specification words describe: [floor(v/S * T)] with
    [S] the total of the holders that remain after the dust filter. *)
Definition spec_allocation (amount threshold : Z) (balances : gmap string Z)
    (v : Z) : Z :=
  v * amount / sum_values (valfilter (λ value, threshold <=? value) balances).

(** ** Loops that may raise *)

(** [for x in l: acc = body(acc, x)], stopping at the first exception. *)
Fixpoint for_each {A B : Type} (body : B → A → result B) (acc : B)
    (l : list A) : result B :=
  match l with
  | [] => Ok acc
  | x :: l => acc ← body acc x; for_each body acc l
  end.

(** [range(start, stop, step)] for a positive [step]. *)
Definition range (start stop step : Z) : list Z :=
  (λ i, start + i * step) <$> seqZ 0 ((stop - start + step - 1) / step).

(** ** The chain node and [transfers_to_balances] *)

(** A decoded [Transfer] event: [log['args']['src']], [['dst']], [['wad']]
    and the block that holds it. *)
Record Log : Type := mkLog {
  blockNumber : Z;
  src : string;
  dst : string;
  wad : Z
}.

(** [balances[key] += amount] on a [Counter]: a missing key counts as 0. *)
Definition counter_add (balances : gmap string Z) (key : string) (amount : Z)
    : gmap string Z :=
  <[key := default 0 (balances !! key) + amount]> balances.

(** The body of the loop over the logs of one batch. *)
Definition apply_log (balances : gmap string Z) (log : Log) : gmap string Z :=
  let balances :=
    if decide (src log ≠ ZERO_ADDRESS)
    then counter_add balances (src log) (- wad log) else balances in
  if decide (dst log ≠ ZERO_ADDRESS)
  then counter_add balances (dst log) (wad log) else balances.

(** [bool(value)] for an int. *)
Definition bool_of_int (value : Z) : bool := negb (value =? 0).

Section chain.
(** The node: for every contract address the [Transfer] events it has
    emitted. *)
Variable events : string → list Log.

(** [contract.events.Transfer().getLogs(fromBlock=a, toBlock=b)]: the events
    of the contract in the blocks [a..b], both ends included. *)
Definition getLogs (address : string) (fromBlock toBlock : Z) : list Log :=
  filter (λ log, fromBlock ≤ blockNumber log ≤ toBlock) (events address).

(** The [Counter] at the end of the loop over the batches. *)
Definition folded_balances (address : string) : gmap string Z :=
  foldl (λ balances start,
           let end_ := Z.min (start + 999) SNAPSHOT_BLOCK in
           let logs := getLogs address start end_ in
           foldl apply_log balances logs)
        ∅ (range START_BLOCK SNAPSHOT_BLOCK 1000).

(** [most_common()] only reorders the items. *)
Definition transfers_to_balances (address : string) : gmap string Z :=
  valfilter bool_of_int (folded_balances address).

(** The same fold over one query for the whole range: what the batched
    loop is compared with. *)
Definition transfers_to_balances_unbatched (address : string)
    : gmap string Z :=
  valfilter bool_of_int
    (foldl apply_log ∅ (getLogs address START_BLOCK SNAPSHOT_BLOCK)).

(** ** [step_01] *)

(** The body of the loop over [TOKENS.items()]. *)
Definition step_01_token (balances : gmap string (gmap string Z))
    (token : string * string) : result (gmap string (gmap string Z)) :=
  let '(name, address) := token in
  let balances := <[name := transfers_to_balances address]> balances in
  lowest ← min_values (default ∅ (balances !! name));
  assert (0 <=? lowest) "negative balances found";;
  mret balances.

Definition step_01 : result (gmap string (gmap string Z)) :=
  for_each step_01_token ∅ TOKENS.

(** ** [step_04] *)

(** The probes [is_uniswap] and [is_balancer] ask the node; a failed probe
    is [False]. *)
Variable is_uniswap : string → bool.
Variable is_balancer : string → bool.

(** Lines 173-179, for the share ledger [balances] of a recognized pool
    whose value is [value]: [None] stands for [continue]. *)
Definition pool_replacement (balances : gmap string Z) (value : Z)
    : result (option (gmap string Z)) :=
  let supply := sum_values balances in
  if decide (supply = 0) then Ok None
  else
    replacement ←
      dict_comp (λ share, pro_rata_share share supply value) balances;
    assert (sum_values replacement <=? value) "no inflation ser";;
    mret (Some replacement).

(** The body of the loop over [contracts]; [value] is
    [contracts[address]]. *)
Definition step_04_contract (replacements : list (string * gmap string Z))
    (contract : string * Z) : result (list (string * gmap string Z)) :=
  let '(address, value) := contract in
  if negb (is_uniswap address || is_balancer address) then Ok replacements
  else
    let balances := transfers_to_balances address in
    replacement ← pool_replacement balances value;
    match replacement with
    | None => Ok replacements
    | Some replacement => Ok (replacements ++ [(address, replacement)])
    end.

(** [contracts] and the result are the items of the dicts, in insertion
    order. *)
Definition step_04 (contracts : list (string * Z))
    : result (list (string * gmap string Z)) :=
  for_each step_04_contract [] contracts.
End chain.

(** ** [step_05] *)

(** The inner loop: [balances.setdefault(user, 0); balances[user] += balance]
    for every item of [additions]. *)
Definition add_all (balances additions : gmap string Z) : gmap string Z :=
  map_fold (λ user balance balances, counter_add balances user balance)
    balances additions.

(** The body of the loop over [replacements.items()]; [balances.pop(remove)]
    raises on a missing key. *)
Definition step_05_replacement (balances : gmap string Z)
    (item : string * gmap string Z) : result (gmap string Z) :=
  let '(remove, additions) := item in
  match balances !! remove with
  | None => Raise (KeyError remove)
  | Some _ => Ok (add_all (delete remove balances) additions)
  end.

Definition step_05 (balances : gmap string Z)
    (replacements : list (string * gmap string Z)) : result (gmap string Z) :=
  for_each step_05_replacement balances replacements.

(** What the resolved pools of [replacements] add to the entry of
    [user]. *)
Definition credited (user : string)
    (replacements : list (string * gmap string Z)) : Z :=
  foldr (λ item acc, default 0 (item.2 !! user) + acc) 0 replacements.

(** ** [MerkleTree] *)

Module MerkleTree.

(** Python [bytes]; a hash is the [bytes] that keccak returns. A hex string
    such as a node of [step_07] or an item of a proof stands for the bytes
    it encodes: [encode_hex] and [hexstr=] are left out. *)
Abbreviation bytes := (list Byte.byte).

Global Instance byte_eq_dec : EqDecision Byte.byte := Byte.byte_eq_dec.

(** [a < b] on [bytes]: lexicographic, the bytes compared as numbers. *)
Fixpoint bytes_lt (a b : bytes) : bool :=
  match a, b with
  | _, [] => false
  | [], _ :: _ => true
  | x :: a, y :: b =>
      if (Byte.to_N x <? Byte.to_N y)%N then true
      else if (Byte.to_N y <? Byte.to_N x)%N then false
      else bytes_lt a b
  end.

(** [sorted] compares with [<] only and is stable: [a] stays before [b]
    unless [b < a]. *)
Definition bytes_le (a b : bytes) : Prop := bytes_lt b a = false.

Global Instance bytes_le_dec : RelDecision bytes_le :=
  λ a b, decide (bytes_lt b a = false).

(** [sorted(l)] *)
Definition sorted (l : list bytes) : list bytes := merge_sort bytes_le l.

(** [set(l)], as the list of its members (which [sorted] then orders). *)
Definition set_of (l : list bytes) : list bytes := remove_dups l.

(** [l.index(x)]: raises ValueError when [x] is not in [l]. *)
Fixpoint index (l : list bytes) (x : bytes) : result nat :=
  match l with
  | [] => Raise ValueError
  | y :: l => if decide (y = x) then Ok 0%nat else i ← index l x; mret (S i)
  end.

(** [l[::2]]; [l[1::2]] is [slice2 (tail l)]. *)
Fixpoint slice2 {A : Type} (l : list A) : list A :=
  match l with
  | [] => []
  | [x] => [x]
  | x :: _ :: l => x :: slice2 l
  end.

(** [itertools.zip_longest(l1, l2)], with [None] as the fill value. *)
Fixpoint zip_longest {A : Type} (l1 l2 : list A) : list (option A * option A) :=
  match l1, l2 with
  | [], _ => (λ y, (None, Some y)) <$> l2
  | _ :: _, [] => (λ x, (Some x, None)) <$> l1
  | x :: l1, y :: l2 => (Some x, Some y) :: zip_longest l1 l2
  end.

Section keccak.
(** [web3.keccak] *)
Variable keccak : bytes → bytes.

(** [combined_hash(a, b)]; an argument may be [None]. *)
Definition combined_hash (a b : option bytes) : option bytes :=
  match a, b with
  | None, _ => b
  | _, None => a
  | Some a, Some b => Some (keccak (mjoin (sorted [a; b])))
  end.

(** The pairs of [zip_longest] never are [(None, None)], so no item is
    lost in [omap]. *)
Definition get_next_layer (elements : list bytes) : list bytes :=
  omap (λ ab, combined_hash ab.1 ab.2)
    (zip_longest (slice2 elements) (slice2 (tail elements))).

(** [get_layers(elements)]: the loop appends the next layer as long as the
    last one has more than one item. *)
Equations? get_layers (elements : list bytes) : list (list bytes)
    by wf (length elements) lt :=
  get_layers elements with decide (1 < length elements)%nat => {
    | left _ => elements :: get_layers (get_next_layer elements);
    | right _ => [elements] }.
Proof.
  clear get_layers.
  assert (∀ n (l : list bytes), (length l ≤ n)%nat →
            (length (get_next_layer l) ≤ length l)%nat ∧
            ((1 < length l)%nat →
             (length (get_next_layer l) < length l)%nat)) as Hlen.
  { induction n as [|n IH]; intros [|a [|b rest]] Hl;
      try (cbn in *; lia).
    assert (get_next_layer (a :: b :: rest)
            = keccak (mjoin (sorted [a; b])) :: get_next_layer rest) as ->
      by (unfold get_next_layer; by destruct rest).
    cbn [length] in *. destruct (IH rest) as [Hle _]; lia. }
  by apply (Hlen (length elements)).
Qed.

(** An instance: [self.elements] and [self.layers]. *)
Record MerkleTree : Type := mkMerkleTree {
  elements : list bytes;
  layers : list (list bytes)
}.

(** [MerkleTree(elements)] *)
Definition new (els : list bytes) : MerkleTree :=
  let elements := sorted (set_of (keccak <$> els)) in
  {| elements := elements; layers := get_layers elements |}.

(** [self.layers[-1][0]] *)
Definition root (self : MerkleTree) : result bytes :=
  match last (layers self) with
  | None => Raise IndexError
  | Some layer =>
      match layer !! 0%nat with
      | None => Raise IndexError
      | Some hash => Ok hash
      end
  end.

(** The loop of [get_proof] over the layers, from the index of the leaf. *)
Fixpoint get_proof_loop (layers : list (list bytes)) (idx : nat) : list bytes :=
  match layers with
  | [] => []
  | layer :: layers =>
      let pair_idx := if Nat.even idx then (idx + 1)%nat else (idx - 1)%nat in
      (if bool_decide (pair_idx < length layer)%nat
       then option_list (layer !! pair_idx) else [])
      ++ get_proof_loop layers (idx / 2)%nat
  end.

Definition get_proof (self : MerkleTree) (el : bytes) : result (list bytes) :=
  let el := keccak el in
  idx ← index (elements self) el;
  mret (get_proof_loop (layers self) idx).

(** The walk of a verifier, after the words of the specification: from the
    leaf hash, every item of the proof is combined with the current hash
    by hashing the concatenation of the sorted pair. *)
Definition proof_walk (leaf : bytes) (proof : list bytes) : bytes :=
  foldl (λ current sibling, keccak (mjoin (sorted [current; sibling])))
    leaf proof.

End keccak.

End MerkleTree.

(** ** Example inputs *)

Definition table_C1 : gmap string Z :=
  {[ "0xA" := Wei_ether 1; "0xB" := 5 * 10 ^ 17 ]}.

Definition table_C2 : gmap string Z :=
  {[ "0xA" := Wei_ether 1; "0xB" := Wei_ether 1; "0xC" := 5 * 10 ^ 17 ]}.

(** A pool ["0xP"] two of whose share holders got their shares before
    [START_BLOCK] and moved them inside the range. *)
Definition events_C3 (address : string) : list Log :=
  if decide (address = "0xP") then
    [ mkLog 10950700 "0xa" "0xc" 2;
      mkLog 10951700 "0xb" "0xc" 2;
      mkLog 10953000 ZERO_ADDRESS "0xc" 3 ]
  else [].

Definition events_C4 (address : string) : list Log :=
  if decide (address = "0xP") then
    [ mkLog 10950700 "0xa" "0xb" 1;
      mkLog 10953000 ZERO_ADDRESS "0xb" 3 ]
  else [].


(** A Uniswap pool ["0xP"] all of whose minted shares were burnt again. *)
Definition events_C10 (address : string) : list Log :=
  if decide (address = "0xP") then
    [ mkLog 10950700 ZERO_ADDRESS "0xa" 7;
      mkLog 10953000 "0xa" ZERO_ADDRESS 7 ]
  else [].

Definition is_uniswap_C10 (address : string) : bool :=
  bool_decide (address = "0xP").

Definition balances_C10 : gmap string Z := {[ "0xP" := 10; "0xq" := 5 ]}.

(** A stand-in for keccak on which the examples are evaluated: the input
    with a byte in front. *)
Definition keccak_toy (data : MerkleTree.bytes) : MerkleTree.bytes :=
  Byte.xff :: data.

Definition leaves_C5 : list MerkleTree.bytes :=
  [ [Byte.x05]; [Byte.x03]; [Byte.x09]; [Byte.x03]; [Byte.x01];
    [Byte.x07]; [Byte.x02] ].


(** Two Uniswap pools: ["0xP"] without any share, and ["0xQ"] with two
    shares, one of them held by ["0xP"]. *)
Definition events_C10_cross (address : string) : list Log :=
  if decide (address = "0xQ") then
    [ mkLog 10950700 ZERO_ADDRESS "0xP" 1;
      mkLog 10950800 ZERO_ADDRESS "0xa" 1 ]
  else [].

Definition is_uniswap_C10_cross (address : string) : bool :=
  bool_decide (address = "0xP" ∨ address = "0xQ").

Definition balances_C10_cross : gmap string Z :=
  {[ "0xP" := 10; "0xQ" := 40 ]}.

(** The sub-amount the specification words describe: the floor of
    [share / total_shares * value]. *)
Definition spec_sub_amount (share supply value : Z) : Z :=
  share * value / supply.

(** ** Auxiliary notions for the proofs *)

(** What one event adds to the balance of [holder]. *)
Definition delta (holder : string) (log : Log) : Z :=
  (if decide (dst log ≠ ZERO_ADDRESS ∧ dst log = holder) then wad log else 0)
  - (if decide (src log ≠ ZERO_ADDRESS ∧ src log = holder) then wad log else 0).

(** The net amount a list of events adds to the balance of [holder]. *)
Definition net (holder : string) (logs : list Log) : Z :=
  foldr (λ log acc, delta holder log + acc) 0 logs.

(** ** Further notions for the ledger *)

Global Instance Log_eq_dec : EqDecision Log.
Proof. solve_decision. Defined.

(** The sum of [f] over a list of events. *)
Definition total (f : Log → Z) (logs : list Log) : Z :=
  foldr (λ log acc, f log + acc) 0 logs.

(** The amount of a mint: an event from the zero address to a holder. *)
Definition mint_amount (log : Log) : Z :=
  if decide (src log = ZERO_ADDRESS ∧ dst log ≠ ZERO_ADDRESS)
  then wad log else 0.

(** The amount of a burn: an event from a holder to the zero address. *)
Definition burn_amount (log : Log) : Z :=
  if decide (src log ≠ ZERO_ADDRESS ∧ dst log = ZERO_ADDRESS)
  then wad log else 0.

(** A node whose log for the pool has the events of [events_C3] in another
    order, and one more after [SNAPSHOT_BLOCK]. *)
Definition events_X4 (address : string) : list Log :=
  if decide (address = "0xP") then
    [ mkLog 10953000 ZERO_ADDRESS "0xc" 3;
      mkLog 10954411 "0xc" "0xa" 7;
      mkLog 10951700 "0xb" "0xc" 2;
      mkLog 10950700 "0xa" "0xc" 2 ]
  else [].

(** A node on which every contract has minted one unit to a holder. *)
Definition events_X5 (address : string) : list Log :=
  [ mkLog 10950700 ZERO_ADDRESS "0xc" 1 ].

(** A ledger passes the check of [step_01] when it has a balance and no
    negative one. *)
Definition ledger_passes (ledger : gmap string Z) : Prop :=
  ledger ≠ ∅ ∧ ∀ holder balance, ledger !! holder = Some balance → 0 ≤ balance.

(** ** [step_03] *)

(** [{user: balances[user] for user, code in zip(balances, codes) if code}]
    with [getCode] for [web3.eth.getCode]: the holders with code. *)
Definition step_03 (getCode : string → list Byte.byte)
    (balances : gmap string Z) : gmap string Z :=
  filter (λ item, getCode item.1 ≠ []) balances.

(** ** Further notions for [step_04] and [step_05] *)

(** A contract that [step_04] resolves: a recognized pool with a non-zero
    share supply. *)
Definition resolves (events : string → list Log)
    (is_uniswap is_balancer : string → bool) (address : string) : bool :=
  (is_uniswap address || is_balancer address)
  && negb (sum_values (transfers_to_balances events address) =? 0).

(** The split of [value] over the share holders of the pool at
    [address]. *)
Definition replacement_of (events : string → list Log) (address : string)
    (value : Z) : gmap string Z :=
  (λ share, share * value ÷ sum_values (transfers_to_balances events address))
    <$> transfers_to_balances events address.

(** No pool of [replacements] is a share holder of a pool of
    [replacements]. *)
Definition no_cross_credit (replacements : list (string * gmap string Z))
    : Prop :=
  ∀ item key, item ∈ replacements → key ∈ replacements.*1 →
              item.2 !! key = None.

(** The values that the pools of [replacements] have in [balances], and
    the sub-amounts that replace them. *)
Definition removed_value (balances : gmap string Z)
    (replacements : list (string * gmap string Z)) : Z :=
  foldr (λ item acc, default 0 (balances !! item.1) + acc) 0 replacements.

Definition added_value (replacements : list (string * gmap string Z)) : Z :=
  foldr (λ item acc, sum_values item.2 + acc) 0 replacements.

(** A table with a pool and two of its share holders, and the resolution
    of the pool. *)
Definition balances_X9 : gmap string Z :=
  {[ "0xP" := 10; "0xa" := 5; "0xq" := 1 ]}.

Definition replacements_X9 : list (string * gmap string Z) :=
  [ ("0xP", {[ "0xa" := 3; "0xb" := 6 ]}) ].

(** Only ["0xP"] has code. *)
Definition getCode_X11 (address : string) : list Byte.byte :=
  if decide (address = "0xP") then [Byte.x60] else [].

(** Three holders, none below the threshold of [step_06]. *)
Definition table_X13 : gmap string Z :=
  {[ "0xA" := Wei_ether 3; "0xB" := Wei_ether 2; "0xC" := Wei_ether 1 ]}.

(** ** [step_07] *)

(** An item of ['claims']: ['index'], ['amount'] and ['proof']. As in
    [MerkleTree], a hex string stands for what it encodes: ['amount'] is
    the integer and ['proof'] the list of hashes. *)
Record Claim : Type := mkClaim {
  claim_index : nat;
  claim_amount : Z;
  claim_proof : list MerkleTree.bytes
}.

(** The distribution: ['merkleRoot'], ['tokenTotal'] and the items of
    ['claims'] in insertion order. *)
Record Distribution : Type := mkDistribution {
  merkleRoot : MerkleTree.bytes;
  tokenTotal : Z;
  claims : list (string * Claim)
}.

(** [sum(l)] *)
Definition sum_list (l : list Z) : Z := foldl Z.add 0 l.

Section step_07.
(** [web3.keccak], and [encode_abi_packed(['uint', 'address', 'uint'], el)]
    of eth_abi, which raises on a value it cannot encode. *)
Variable keccak : MerkleTree.bytes → MerkleTree.bytes.
Variable encode_abi_packed : nat * string * Z → result MerkleTree.bytes.

(** The value of one item of the ['claims'] comprehension. *)
Definition step_07_claim (tree : MerkleTree.MerkleTree)
    (nodes : list MerkleTree.bytes) (element : nat * string * Z)
    : result (string * Claim) :=
  let '(index, user, amount) := element in
  node ← from_option Ok (Raise IndexError) (nodes !! index);
  proof ← MerkleTree.get_proof keccak tree node;
  mret (user, mkClaim index amount proof).

(** [balances] is the list of the items of the dict, in insertion order;
    the entries of the result are evaluated in the order of the dict
    display: the root, the total, the claims. *)
Definition step_07 (balances : list (string * Z)) : result Distribution :=
  let elements := imap (λ index item, (index, item.1, item.2)) balances in
  nodes ← mapM encode_abi_packed elements;
  let tree := MerkleTree.new keccak nodes in
  root ← MerkleTree.root tree;
  let total := sum_list balances.*2 in
  claims ← mapM (step_07_claim tree nodes) elements;
  mret (mkDistribution root total claims).
End step_07.

(** A stand-in for the packed encoding on which the examples are
    evaluated: the index and the amount as one byte each when they fit. *)
Definition encode_toy (element : nat * string * Z) : result MerkleTree.bytes :=
  let '(index, user, amount) := element in
  match Byte.of_nat index, Byte.of_N (Z.to_N amount) with
  | Some b1, Some b2 =>
      if bool_decide (0 ≤ amount) then Ok [b1; b2] else Raise ValueError
  | _, _ => Raise ValueError
  end.

Definition balances_X21 : list (string * Z) :=
  [ ("0xA", 7); ("0xB", 5); ("0xC", 3) ].

(** ** [cached] *)

Section cached.
(** The files are a map from path to text. [loads] and [dumps] are those
    of the codec that the suffix of the path selects (toml or json);
    [loads] may raise on a text that is not of the format. *)
Context {A : Type}.
Variable loads : string → result A.
Variable dumps : A → string.

(** The wrapper that [cached(path)] puts around a stage: [func] stands for
    the call of the stage with the wrapper's arguments, which reads the
    node and no file. The result is what the wrapper returns or raises,
    and the files it leaves. *)
Definition cached (path : string) (func : result A)
    (files : gmap string string) : result A * gmap string string :=
  match files !! path with
  | Some text => (loads text, files)
  | None =>
      match func with
      | Ok result => (Ok result, <[path := dumps result]> files)
      | Raise e => (Raise e, files)
      end
  end.
End cached.

(** ** [ensure_archive_node], [convert_to_dai] and [step_02] *)

(** [d[key]] on the items of a dict. *)
Fixpoint dict_get (d : list (string * string)) (key : string) : result string :=
  match d with
  | [] => Raise (KeyError key)
  | (k, v) :: d => if decide (k = key) then Ok v else dict_get d key
  end.

(** [str(EMN)], that is [TOKENS['EMN']]. *)
Definition EMN : string := "0x5ade7ae8660293f2ebfcefaba91d141d72d221e8".

Section valuation.
(** The node: [total_supply block] is the answer to the [totalSupply] call
    on EMN, at the latest block for [None]; [burn_return contract amount]
    is the decoded answer to [calculateContinuousBurnReturn(amount)] on
    [contract] at [SNAPSHOT_BLOCK]. *)
Variable total_supply : option Z → list Byte.byte.
Variable burn_return : string → Z → Z.

Definition ensure_archive_node : result unit :=
  let fresh := total_supply None in
  let old := total_supply (Some SNAPSHOT_BLOCK) in
  assert (bool_decide (fresh ≠ old)) "this step requires an archive node".

Definition convert_to_dai (name : string) (balance : Z) : result Z :=
  token ← dict_get TOKENS name;
  let dai := burn_return token balance in
  if bool_decide (name ∈ ["eCRV"; "eLINK"; "eAAVE"; "eYFI"; "eSNX"])
  then Ok (burn_return EMN dai)
  else Ok dai.

(** The loop over the holders of one token: the conversions are taken in
    the order of the holders. *)
Definition step_02_token (name : string) (dai_balances : gmap string Z)
    (item : string * Z) : result (gmap string Z) :=
  let '(user, balance) := item in
  dai ← convert_to_dai name balance;
  mret (counter_add dai_balances user dai).

(** [balances] is given by its items, and each ledger by its items, in
    insertion order. *)
Definition step_02 (balances : list (string * list (string * Z)))
    : result (gmap string Z) :=
  ensure_archive_node;;
  dai_balances ←
    for_each (λ dai_balances token,
                for_each (step_02_token token.1) dai_balances token.2)
      ∅ balances;
  mret (valfilter bool_of_int dai_balances).

(** The dai value of [balance] of the token [name], 0 for an unknown
    name. *)
Definition dai_of (name : string) (balance : Z) : Z :=
  match convert_to_dai name balance with
  | Ok dai => dai
  | Raise _ => 0
  end.

(** What the holders' items of the ledgers add up to for [user]. *)
Definition ledger_dai (name user : string) (ledger : list (string * Z)) : Z :=
  foldr (λ item acc,
           (if decide (item.1 = user) then dai_of name item.2 else 0) + acc)
    0 ledger.

Definition total_dai (user : string)
    (balances : list (string * list (string * Z))) : Z :=
  foldr (λ token acc, ledger_dai token.1 user token.2 + acc) 0 balances.
End valuation.

(** A node that answers every burn call with half the amount, and whose
    total supply has changed since the snapshot. *)
Definition burn_toy (contract : string) (amount : Z) : Z := amount / 2.

Definition total_supply_toy (block : option Z) : list Byte.byte :=
  match block with None => [Byte.x02] | Some _ => [Byte.x01] end.

Definition balances_X24 : list (string * list (string * Z)) :=
  [ ("EMN", [("0xa", 8); ("0xb", 1)]); ("eCRV", [("0xa", 12)]) ].

(** ** Facts about the embedding *)

(** Closes a decidable closed goal by evaluating its decision procedure. *)
Ltac by_compute :=
  match goal with
  | |- ?P => apply (bool_decide_unpack P); by vm_compute
  end.

(** *** Fractions *)

Lemma Fraction_new_zero n : Fraction_new n 0 = Raise ZeroDivisionError.
Proof. reflexivity. Qed.

(** A constructed fraction has a positive denominator and is the given
    quotient with a common factor removed. *)
Lemma Fraction_new_ok n d :
  d ≠ 0 →
  ∃ f g, Fraction_new n d = Ok f ∧ 0 < denominator f ∧ g ≠ 0 ∧
         n = numerator f * g ∧ d = denominator f * g.
Proof.
  intros Hd. unfold Fraction_new. destruct (decide (d = 0)) as [|_]; [done|].
  pose proof (Z.gcd_nonneg n d) as Hg0.
  assert (Z.gcd n d ≠ 0) as Hg by (intros [_ ?]%Z.gcd_eq_0; done).
  destruct (Z.gcd_divide_l n d) as [n' Hn], (Z.gcd_divide_r n d) as [d' Hd'].
  set (g := Z.gcd n d) in *.
  destruct (Z.ltb_spec d 0) as [Hneg|Hpos].
  - exists (mkFraction (n / - g) (d / - g)), (- g). simpl.
    assert (n / - g = - n') as ->.
    { rewrite Hn at 1. replace (n' * g) with (- n' * - g) by lia.
      apply Z.div_mul. lia. }
    assert (d / - g = - d') as ->.
    { rewrite Hd' at 1. replace (d' * g) with (- d' * - g) by lia.
      apply Z.div_mul. lia. }
    repeat split; [nia | lia | lia | lia].
  - exists (mkFraction (n / g) (d / g)), g. simpl.
    assert (n / g = n') as -> by (rewrite Hn at 1; by apply Z.div_mul).
    assert (d / g = d') as -> by (rewrite Hd' at 1; by apply Z.div_mul).
    repeat split; [nia | lia | lia | lia].
Qed.

(** [int] of a fraction is the quotient truncated toward zero. *)
Lemma Fraction_int_quot f :
  0 < denominator f → Fraction_int f = numerator f ÷ denominator f.
Proof.
  intros Hd. unfold Fraction_int. destruct (Z.ltb_spec (numerator f) 0).
  - rewrite <- (Z.opp_involutive (numerator f)) at 2.
    rewrite Z.quot_opp_l by lia. f_equal.
    symmetry. apply Z.quot_div_nonneg; lia.
  - apply eq_sym, Z.quot_div_nonneg; lia.
Qed.

(** The shared expression [int(Fraction(part, whole) * amount)]: it raises
    exactly on a zero [whole], and otherwise is [part * amount / whole]
    truncated toward zero, the reductions by gcd notwithstanding. *)
Lemma pro_rata_share_quot part whole amount :
  whole ≠ 0 → pro_rata_share part whole amount = Ok (part * amount ÷ whole).
Proof.
  intros Hw. unfold pro_rata_share.
  destruct (Fraction_new_ok part whole Hw) as (f & g & -> & Hf & Hg & Hn & Hd).
  simpl. unfold Fraction_mul_int.
  destruct (Fraction_new_ok (numerator f * amount) (denominator f * 1))
    as (p & h & -> & Hp & Hh & Hn' & Hd'); [lia|].
  simpl. f_equal. rewrite Fraction_int_quot by done.
  rewrite <- (Z.quot_mul_cancel_r (numerator p) (denominator p) h) by lia.
  rewrite <- Hn', <- Hd', Z.mul_1_r.
  rewrite <- (Z.quot_mul_cancel_r (numerator f * amount) (denominator f) g) by lia.
  f_equal; lia.
Qed.

Lemma pro_rata_share_zero part amount :
  pro_rata_share part 0 amount = Raise ZeroDivisionError.
Proof. reflexivity. Qed.

(** For a non-negative product and a positive divisor truncation is floor. *)
Lemma pro_rata_share_floor part whole amount :
  0 ≤ part * amount → 0 < whole →
  pro_rata_share part whole amount = Ok (part * amount / whole).
Proof.
  intros ??. rewrite pro_rata_share_quot by lia.
  by rewrite Z.quot_div_nonneg.
Qed.

(** *** Dictionaries *)

Lemma sum_values_empty : sum_values ∅ = 0.
Proof. apply map_fold_empty. Qed.

Lemma sum_values_insert (d : gmap string Z) k v :
  d !! k = None → sum_values (<[k:=v]> d) = sum_values d + v.
Proof.
  intros Hk. unfold sum_values.
  rewrite map_fold_insert_L; [done| |done]. intros; lia.
Qed.

Lemma sum_values_nonneg (d : gmap string Z) :
  (∀ k v, d !! k = Some v → 0 ≤ v) → 0 ≤ sum_values d.
Proof.
  induction d as [|k v d Hk IH] using map_ind; intros Hd.
  - by rewrite sum_values_empty.
  - rewrite sum_values_insert by done.
    assert (0 ≤ v) by (apply (Hd k); by rewrite lookup_insert_eq).
    assert (0 ≤ sum_values d); [|lia].
    apply IH. intros j w Hj. apply (Hd j). rewrite lookup_insert_ne; [done|].
    intros ->. congruence.
Qed.

Lemma sum_values_lookup_le (d : gmap string Z) k v :
  (∀ k v, d !! k = Some v → 0 ≤ v) → d !! k = Some v → v ≤ sum_values d.
Proof.
  intros Hd Hk. rewrite <- (insert_delete_id d k v Hk).
  rewrite sum_values_insert by apply lookup_delete_eq.
  assert (0 ≤ sum_values (delete k d)); [|lia].
  apply sum_values_nonneg. intros j w [_ Hj]%lookup_delete_Some. eauto.
Qed.

Lemma sum_values_zero (d : gmap string Z) :
  (∀ k v, d !! k = Some v → v = 0) → sum_values d = 0.
Proof.
  induction d as [|k v d Hk IH] using map_ind; intros Hd.
  - by rewrite sum_values_empty.
  - rewrite sum_values_insert by done.
    rewrite (Hd k v) by apply lookup_insert_eq. rewrite IH; [done|].
    intros j w Hj. apply (Hd j). rewrite lookup_insert_ne; [done|].
    intros ->. congruence.
Qed.

Lemma valfilter_lookup_Some P (d : gmap string Z) k v :
  valfilter P d !! k = Some v ↔ d !! k = Some v ∧ P v = true.
Proof. unfold valfilter. by rewrite map_lookup_filter_Some. Qed.

Lemma sum_values_valfilter_le P (d : gmap string Z) :
  (∀ k v, d !! k = Some v → 0 ≤ v) →
  sum_values (valfilter P d) ≤ sum_values d.
Proof.
  unfold valfilter. induction d as [|k v d Hk IH] using map_ind; intros Hd.
  - by rewrite map_filter_empty.
  - assert (0 ≤ v) by (apply (Hd k); by rewrite lookup_insert_eq).
    assert (sum_values (filter (λ kv, P kv.2 = true) d) ≤ sum_values d).
    { apply IH. intros j w Hj. apply (Hd j). rewrite lookup_insert_ne; [done|].
      intros ->. congruence. }
    rewrite (sum_values_insert d) by done.
    destruct (P v) eqn:HP.
    + rewrite map_filter_insert_True by done.
      rewrite sum_values_insert; [lia|]. by rewrite map_lookup_filter, Hk.
    + rewrite map_filter_insert_not'; [lia|simpl; congruence|].
      intros y. by rewrite Hk.
Qed.

(** Quotients and remainders of the scaled values add up to the scaled
    total: [c * Σ q(v) + Σ r(v) = a * Σ v]. *)
Lemma sum_values_quot_rem (q r : Z → Z) (c a : Z) (d : gmap string Z) :
  (∀ k v, d !! k = Some v → c * q v + r v = a * v) →
  c * sum_values (q <$> d) + sum_values (r <$> d) = a * sum_values d.
Proof.
  induction d as [|k v d Hk IH] using map_ind; intros Hd.
  - rewrite !fmap_empty, sum_values_empty. lia.
  - rewrite !fmap_insert, !sum_values_insert by (by rewrite ?lookup_fmap, ?Hk).
    pose proof (Hd k v (lookup_insert_eq _ _ _)).
    assert (c * sum_values (q <$> d) + sum_values (r <$> d) = a * sum_values d);
      [|lia].
    apply IH. intros j w Hj. apply (Hd j). rewrite lookup_insert_ne; [done|].
    intros ->. congruence.
Qed.

(** A comprehension whose body succeeds on every value is the pointwise
    image of the dict. *)
Lemma dict_comp_ok (f : Z → result Z) (g : Z → Z) (d : gmap string Z) :
  (∀ k v, d !! k = Some v → f v = Ok (g v)) →
  dict_comp f d = Ok (g <$> d).
Proof.
  unfold dict_comp.
  apply (map_fold_weak_ind (λ r d,
    (∀ k v, d !! k = Some v → f v = Ok (g v)) → r = Ok (g <$> d))).
  - intros _. by rewrite fmap_empty.
  - intros k v m r Hk IH Hf. rewrite IH.
    + simpl. rewrite (Hf k v) by apply lookup_insert_eq. simpl.
      by rewrite fmap_insert.
    + intros j w Hj. apply (Hf j). rewrite lookup_insert_ne; [done|].
      intros ->. congruence.
Qed.

(** *** The pro-rata split of an amount over a table of non-negative values *)

Section pro_rata_split.
Context (amount whole : Z) (d : gmap string Z).
Hypothesis amount_nonneg : 0 ≤ amount.
Hypothesis whole_pos : 0 < whole.
Hypothesis values_nonneg : ∀ k v, d !! k = Some v → 0 ≤ v.
Hypothesis part_of_whole : sum_values d ≤ whole.

Let q (v : Z) : Z := v * amount / whole.
Let r (v : Z) : Z := (v * amount) mod whole.

Lemma split_comp :
  dict_comp (λ v, pro_rata_share v whole amount) d = Ok (q <$> d).
Proof.
  apply dict_comp_ok. intros k v Hk. apply pro_rata_share_floor; [|done].
  specialize (values_nonneg k v Hk). nia.
Qed.

Lemma split_defect :
  whole * (amount - sum_values (q <$> d))
  = amount * (whole - sum_values d) + sum_values (r <$> d).
Proof.
  assert (whole * sum_values (q <$> d) + sum_values (r <$> d)
          = amount * sum_values d) as H; [|lia].
  apply sum_values_quot_rem. intros k v _. unfold q, r.
  pose proof (Z.div_mod (v * amount) whole). lia.
Qed.

Lemma split_rem_nonneg : 0 ≤ sum_values (r <$> d).
Proof.
  apply sum_values_nonneg. intros k v.
  rewrite lookup_fmap. intros (w & _ & ->)%fmap_Some.
  apply Z.mod_pos_bound. lia.
Qed.

Lemma split_sum_le : sum_values (q <$> d) ≤ amount.
Proof. pose proof split_defect. pose proof split_rem_nonneg. nia. Qed.

Lemma split_sum_eq :
  0 < amount →
  sum_values (q <$> d) = amount ↔
  sum_values d = whole ∧ ∀ k v, d !! k = Some v → (v * amount) mod whole = 0.
Proof.
  intros Ha. pose proof split_defect as Hdef.
  pose proof split_rem_nonneg as Hrem. split.
  - intros Heq. rewrite Heq, Z.sub_diag, Z.mul_0_r in Hdef.
    assert (sum_values (r <$> d) = 0) as Hr0 by nia.
    split; [nia|]. intros k v Hk.
    assert (r v ≤ sum_values (r <$> d)).
    { apply (sum_values_lookup_le _ k).
      - intros j w. rewrite lookup_fmap. intros (u & _ & ->)%fmap_Some.
        apply Z.mod_pos_bound. lia.
      - by rewrite lookup_fmap, Hk. }
    pose proof (Z.mod_pos_bound (v * amount) whole). unfold r in *. lia.
  - intros [Hsum Hex]. rewrite (sum_values_zero (r <$> d)) in Hdef.
    + nia.
    + intros k v. rewrite lookup_fmap. intros (w & Hw & ->)%fmap_Some. eauto.
Qed.
End pro_rata_split.

(** *** [step_06] on a table of non-negative values *)

Lemma pro_rata_distribution_ok amount threshold (balances : gmap string Z) :
  0 ≤ amount → 0 < threshold →
  (∀ k v, balances !! k = Some v → 0 ≤ v) →
  pro_rata_distribution amount threshold balances
  = Ok ((λ v, v * amount / sum_values balances)
          <$> valfilter (λ value, threshold <=? value) balances)
  ∧ sum_values ((λ v, v * amount / sum_values balances)
          <$> valfilter (λ value, threshold <=? value) balances) ≤ amount.
Proof.
  intros Ha Ht Hnn. unfold pro_rata_distribution.
  set (total := sum_values balances).
  set (kept := valfilter (λ value, threshold <=? value) balances).
  assert (∀ k v, kept !! k = Some v → 0 < v ∧ 0 < total) as Hkept.
  { intros k v [Hk Hv%Z.leb_le]%valfilter_lookup_Some.
    pose proof (sum_values_lookup_le balances k v Hnn Hk). subst total. lia. }
  assert (sum_values ((λ v, v * amount / total) <$> kept) ≤ amount) as Hle.
  { destruct (decide (0 < total)) as [Hpos|Hzero].
    - apply (split_sum_le amount total kept); [done..|].
      by apply sum_values_valfilter_le.
    - rewrite sum_values_zero; [done|]. intros k v.
      rewrite lookup_fmap. intros (w & Hw & _)%fmap_Some.
      destruct (Hkept k w Hw). lia. }
  split; [|done].
  rewrite (dict_comp_ok _ (λ v, v * amount / total)).
  - simpl. apply Z.leb_le in Hle. by rewrite Hle.
  - intros k v Hk. destruct (Hkept k v Hk).
    apply pro_rata_share_floor; [nia|done].
Qed.

(** ** The claims about the allocator *)

(** C1, as stated, fails: with holders of 1 ether and 0.5 ether the only
    survivor of the dust filter is allocated two thirds of the distribution
    amount (the denominator counts the excluded 0.5 ether), not the
    [floor(v/S * T)] over the remaining holders, which would be all of it. *)
Lemma C1_counterexample :
  table_C1 !! "0xA" = Some (Wei_ether 1) ∧
  valfilter (λ value, Wei_ether 1 <=? value) table_C1 !! "0xA"
    = Some (Wei_ether 1) ∧
  spec_allocation DISTRIBUTION_AMOUNT (Wei_ether 1) table_C1 (Wei_ether 1)
    = 8000000000000000000000000 ∧
  ∃ out, step_06 table_C1 = Ok out ∧
         out !! "0xA" = Some 5333333333333333333333333.
Proof.
  split; [by vm_compute|]. split; [by vm_compute|]. split; [by vm_compute|].
  eexists. split; [by vm_compute|]. by vm_compute.
Qed.

(** C1 (amended): for a distribution amount [T >= 0], a positive dust
    threshold and a table of non-negative values, the allocator returns, its
    result has exactly the holders that pass the threshold, and each of them
    receives [floor(v * T / S)] where [S] is the total of the whole table,
    taken before the dust filter. *)
Theorem C1_allocation_uses_prefilter_total amount threshold
    (balances : gmap string Z) :
  0 ≤ amount → 0 < threshold →
  (∀ k v, balances !! k = Some v → 0 ≤ v) →
  ∃ out, pro_rata_distribution amount threshold balances = Ok out ∧
    ∀ k, out !! k =
      v ← balances !! k;
      if bool_decide (threshold ≤ v)
      then Some (v * amount / sum_values balances) else None.
Proof.
  intros Ha Ht Hnn.
  destruct (pro_rata_distribution_ok amount threshold balances) as [-> _];
    [done..|].
  eexists. split; [done|]. intros k.
  rewrite lookup_fmap. unfold valfilter. rewrite map_lookup_filter.
  destruct (balances !! k) as [v|]; simpl; [|done].
  case_bool_decide as Hv.
  - apply Z.leb_le in Hv. rewrite option_guard_True by done. done.
  - rewrite option_guard_False; [done|]. by rewrite Z.leb_le.
Qed.

Lemma C1_allocation_witness :
  ∃ out, step_06 table_C1 = Ok out ∧
    ∀ k, out !! k =
      v ← table_C1 !! k;
      if bool_decide (Wei_ether 1 ≤ v)
      then Some (v * DISTRIBUTION_AMOUNT / sum_values table_C1) else None.
Proof.
  apply (C1_allocation_uses_prefilter_total DISTRIBUTION_AMOUNT (Wei_ether 1)
           table_C1).
  - by vm_compute.
  - by vm_compute.
  - apply (bool_decide_unpack (map_Forall (λ _ v, 0 ≤ v) table_C1)).
    by vm_compute.
Defined.

(** C2, as stated, fails in its "equals T exactly when" half: with two
    holders of 1 ether and a dust holder of 0.5 ether every remaining value
    divides evenly (it divides [T], and [v * T] is a multiple of the total
    both with and without the dust holder), yet the outputs sum to
    [0.8 * T]: the share of the excluded holder is not redistributed. *)
Lemma C2_counterexample :
  map_Forall (λ _ v,
      DISTRIBUTION_AMOUNT mod v = 0 ∧
      (v * DISTRIBUTION_AMOUNT)
        mod sum_values (valfilter (λ value, Wei_ether 1 <=? value) table_C2) = 0 ∧
      (v * DISTRIBUTION_AMOUNT) mod sum_values table_C2 = 0)
    (valfilter (λ value, Wei_ether 1 <=? value) table_C2) ∧
  ∃ out, step_06 table_C2 = Ok out ∧
         sum_values out = 6400000000000000000000000 ∧
         sum_values out ≠ DISTRIBUTION_AMOUNT.
Proof.
  split.
  - by_compute.
  - eexists. split; [by vm_compute|]. split; by vm_compute.
Qed.

(** C2 (amended): for a distribution amount [T > 0], a positive dust
    threshold and a table of non-negative values, the allocator returns and
    its outputs sum to at most [T]; the sum equals [T] exactly when the
    excluded holders carry no value (the remaining holders' total is the
    whole table's total [S > 0]) and [v * T] is a multiple of [S] for every
    remaining holder. *)
Theorem C2_allocation_bound amount threshold (balances : gmap string Z) :
  0 < amount → 0 < threshold →
  (∀ k v, balances !! k = Some v → 0 ≤ v) →
  ∃ out, pro_rata_distribution amount threshold balances = Ok out ∧
    sum_values out ≤ amount ∧
    (sum_values out = amount ↔
       0 < sum_values balances ∧
       sum_values (valfilter (λ value, threshold <=? value) balances)
         = sum_values balances ∧
       ∀ k v, balances !! k = Some v → threshold ≤ v →
              (v * amount) mod sum_values balances = 0).
Proof.
  intros Ha Ht Hnn.
  destruct (pro_rata_distribution_ok amount threshold balances) as [-> Hle];
    [lia|done..|].
  eexists. split; [done|]. split; [done|].
  set (total := sum_values balances) in *.
  set (kept := valfilter (λ value, threshold <=? value) balances) in *.
  destruct (decide (0 < total)) as [Hpos|Hzero].
  - rewrite (split_sum_eq amount total kept); [|done| |done].
    + split.
      * intros [Hsum Hex]. split; [done|]. split; [done|].
        intros k v Hk Hv. apply (Hex k). apply valfilter_lookup_Some.
        split; [done|]. by apply Z.leb_le.
      * intros (_ & Hsum & Hex). split; [done|].
        intros k v [Hk Hv%Z.leb_le]%valfilter_lookup_Some. eauto.
    + by apply sum_values_valfilter_le.
  - split; [|lia]. intros Heq. exfalso.
    rewrite sum_values_zero in Heq; [lia|]. intros k v.
    rewrite lookup_fmap.
    intros (w & [Hk Hv%Z.leb_le]%valfilter_lookup_Some & _)%fmap_Some.
    pose proof (sum_values_lookup_le balances k w Hnn Hk). subst total. lia.
Qed.

Lemma C2_allocation_bound_witness :
  ∃ out, step_06 table_C2 = Ok out ∧
    sum_values out ≤ DISTRIBUTION_AMOUNT ∧
    (sum_values out = DISTRIBUTION_AMOUNT ↔
       0 < sum_values table_C2 ∧
       sum_values (valfilter (λ value, Wei_ether 1 <=? value) table_C2)
         = sum_values table_C2 ∧
       ∀ k v, table_C2 !! k = Some v → Wei_ether 1 ≤ v →
              (v * DISTRIBUTION_AMOUNT) mod sum_values table_C2 = 0).
Proof.
  apply (C2_allocation_bound DISTRIBUTION_AMOUNT (Wei_ether 1) table_C2).
  - by vm_compute.
  - by vm_compute.
  - apply (bool_decide_unpack (map_Forall (λ _ v, 0 ≤ v) table_C2)).
    by vm_compute.
Defined.

(** ** The claims about the pool split of [step_04] *)

(** A pool with a non-zero share supply: every sub-amount is the exact
    quotient truncated toward zero, and the assertion decides the rest. *)
Lemma pool_replacement_eval (balances : gmap string Z) value :
  sum_values balances ≠ 0 →
  pool_replacement balances value =
    let replacement :=
      (λ share, share * value ÷ sum_values balances) <$> balances in
    if bool_decide (sum_values replacement ≤ value)
    then Ok (Some replacement)
    else Raise (AssertionError "no inflation ser").
Proof.
  intros Hs. unfold pool_replacement.
  destruct (decide (sum_values balances = 0)) as [|_]; [done|].
  rewrite (dict_comp_ok _ (λ share, share * value ÷ sum_values balances)).
  - simpl. case_bool_decide as Hle.
    + apply Z.leb_le in Hle. by rewrite Hle.
    + apply Z.leb_nle in Hle. by rewrite Hle.
  - intros k v _. by apply pro_rata_share_quot.
Qed.

(** C3, as stated, fails: a recognized pool whose share ledger has negative
    balances (shares acquired before [START_BLOCK] and moved after it) can
    have sub-amounts that add up to more than its value, and then the
    assertion fires. Shares -2, -2 and 7 of a pool worth 10 give
    -6, -6 and 23, that is 11. *)
Lemma C3_counterexample :
  (∃ sub,
     dict_comp
       (λ share, pro_rata_share share
                   (sum_values (transfers_to_balances events_C3 "0xP")) 10)
       (transfers_to_balances events_C3 "0xP") = Ok sub ∧
     sum_values sub = 11) ∧
  step_04 events_C3 (λ _, true) (λ _, false) [("0xP", 10)]
    = Raise (AssertionError "no inflation ser").
Proof. split; [eexists; split|]; by vm_compute. Qed.

(** C3 (amended): for a recognized pool with a non-zero share supply whose
    share balances are all non-negative and whose value is non-negative,
    the sub-amounts add up to at most the pool's value, so the assertion
    does not fire and the replacement is produced; the sum equals the value
    exactly when [share * value] is a multiple of the supply for every
    share holder. *)
Theorem C3_pool_split_conservation (balances : gmap string Z) value :
  (∀ k v, balances !! k = Some v → 0 ≤ v) →
  0 ≤ value →
  sum_values balances ≠ 0 →
  ∃ replacement,
    pool_replacement balances value = Ok (Some replacement) ∧
    sum_values replacement ≤ value ∧
    (sum_values replacement = value ↔
       ∀ k v, balances !! k = Some v →
              (v * value) mod sum_values balances = 0).
Proof.
  intros Hnn Hv Hs.
  pose proof (sum_values_nonneg balances Hnn) as Hs0.
  set (supply := sum_values balances) in *.
  assert ((λ share, share * value ÷ supply) <$> balances
          = (λ share, share * value / supply) <$> balances) as Hfloor.
  { apply map_fmap_ext. intros k v Hk. apply Z.quot_div_nonneg; [|lia].
    specialize (Hnn k v Hk). nia. }
  assert (sum_values ((λ share, share * value / supply) <$> balances) ≤ value)
    as Hle by (apply split_sum_le; [done|lia|done]).
  rewrite pool_replacement_eval by done. fold supply. simpl.
  rewrite Hfloor, bool_decide_eq_true_2 by done.
  eexists. split; [done|]. split; [done|].
  destruct (decide (value = 0)) as [->|Hne].
  - split; [|intros _].
    + intros _ k v _. by rewrite Z.mul_0_r, Z.mod_0_l by done.
    + apply sum_values_zero. intros k v.
      rewrite lookup_fmap. intros (w & _ & ->)%fmap_Some.
      by rewrite Z.mul_0_r.
  - rewrite (split_sum_eq value supply balances); [|lia|done|lia].
    split; [by intros [_ ?]|by intros ?].
Qed.

Lemma C3_pool_split_witness :
  ∃ replacement,
    pool_replacement {[ "0xa" := 1; "0xb" := 2 ]} 10 = Ok (Some replacement) ∧
    sum_values replacement ≤ 10 ∧
    (sum_values replacement = 10 ↔
       ∀ k v, ({[ "0xa" := 1; "0xb" := 2 ]} : gmap string Z) !! k = Some v →
              (v * 10) mod sum_values {[ "0xa" := 1; "0xb" := 2 ]} = 0).
Proof.
  apply (C3_pool_split_conservation {[ "0xa" := 1; "0xb" := 2 ]} 10).
  - apply (bool_decide_unpack
             (map_Forall (λ _ v, 0 ≤ v) {[ "0xa" := 1; "0xb" := 2 ]})).
    by vm_compute.
  - lia.
  - by vm_compute.
Defined.

(** C4, as stated, fails for a negative share: [int()] truncates toward
    zero. A holder with -1 of 3 shares of a pool worth 10 is given -3,
    while the floor of -10/3 is -4. *)
Lemma C4_counterexample :
  transfers_to_balances events_C4 "0xP" !! "0xa" = Some (-1) ∧
  sum_values (transfers_to_balances events_C4 "0xP") = 3 ∧
  spec_sub_amount (-1) 3 10 = -4 ∧
  ∃ replacement,
    step_04 events_C4 (λ _, true) (λ _, false) [("0xP", 10)]
      = Ok [("0xP", replacement)] ∧
    replacement !! "0xa" = Some (-3).
Proof.
  split; [by vm_compute|]. split; [by vm_compute|]. split; [by vm_compute|].
  eexists. split; by vm_compute.
Qed.

(** C4 (amended): for a recognized pool with a non-zero share supply the
    comprehension gives every internal holder, whatever the sign of its
    share, the exact rational [share * value / supply] rounded once, toward
    zero; this is the floor whenever [share * value] is non-negative and
    the supply positive. The replacement is kept when the sub-amounts pass
    the assertion. *)
Theorem C4_sub_amount_truncates (balances : gmap string Z) value :
  sum_values balances ≠ 0 →
  let supply := sum_values balances in
  dict_comp (λ share, pro_rata_share share supply value) balances
    = Ok ((λ share, share * value ÷ supply) <$> balances) ∧
  (∀ replacement, pool_replacement balances value = Ok (Some replacement) →
     ∀ user, replacement !! user
             = (λ share, share * value ÷ supply) <$> balances !! user) ∧
  (∀ share, 0 ≤ share * value → 0 < supply →
     share * value ÷ supply = spec_sub_amount share supply value).
Proof.
  intros Hs supply. split; [|split].
  - apply dict_comp_ok. intros k v _. by apply pro_rata_share_quot.
  - intros replacement. rewrite pool_replacement_eval by done. simpl.
    case_bool_decide; [|done]. intros [= <-] user. by rewrite lookup_fmap.
  - intros share ??. by apply Z.quot_div_nonneg.
Qed.

Lemma C4_sub_amount_witness :
  let balances : gmap string Z := {[ "0xa" := -1; "0xb" := 4 ]} in
  let supply := sum_values balances in
  dict_comp (λ share, pro_rata_share share supply 10) balances
    = Ok ((λ share, share * 10 ÷ supply) <$> balances) ∧
  (∀ replacement, pool_replacement balances 10 = Ok (Some replacement) →
     ∀ user, replacement !! user
             = (λ share, share * 10 ÷ supply) <$> balances !! user) ∧
  (∀ share, 0 ≤ share * 10 → 0 < supply →
     share * 10 ÷ supply = spec_sub_amount share supply 10).
Proof.
  apply (C4_sub_amount_truncates {[ "0xa" := -1; "0xb" := 4 ]} 10).
  by vm_compute.
Defined.

(** ** The ledger fold of [transfers_to_balances] *)

Lemma counter_add_lookup (balances : gmap string Z) key amount holder :
  default 0 (counter_add balances key amount !! holder)
  = default 0 (balances !! holder) + (if decide (key = holder) then amount else 0).
Proof.
  unfold counter_add. case_decide as Hk.
  - subst. by rewrite lookup_insert_eq.
  - rewrite lookup_insert_ne by done. lia.
Qed.

Lemma apply_log_lookup (balances : gmap string Z) log holder :
  default 0 (apply_log balances log !! holder)
  = default 0 (balances !! holder) + delta holder log.
Proof.
  unfold apply_log, delta.
  destruct (decide (src log ≠ ZERO_ADDRESS)) as [Hs|Hs],
    (decide (dst log ≠ ZERO_ADDRESS)) as [Hd|Hd];
    rewrite ?counter_add_lookup;
    repeat destruct (decide _) as [?|?]; try lia; intuition congruence.
Qed.

Lemma foldl_apply_log_lookup logs (balances : gmap string Z) holder :
  default 0 (foldl apply_log balances logs !! holder)
  = default 0 (balances !! holder) + net holder logs.
Proof.
  revert balances. induction logs as [|log logs IH]; intros balances; simpl.
  - lia.
  - rewrite IH, apply_log_lookup. lia.
Qed.

Lemma valfilter_bool_lookup (balances : gmap string Z) holder :
  valfilter bool_of_int balances !! holder
  = if decide (default 0 (balances !! holder) = 0) then None
    else Some (default 0 (balances !! holder)).
Proof.
  unfold valfilter, bool_of_int. rewrite map_lookup_filter.
  destruct (balances !! holder) as [v|]; simpl; [|done].
  case_decide as Hv.
  - subst v. by rewrite option_guard_False.
  - rewrite option_guard_True; [done|]. simpl.
    by apply negb_true_iff, Z.eqb_neq.
Qed.

Lemma valfilter_bool_ext (m1 m2 : gmap string Z) :
  (∀ holder, default 0 (m1 !! holder) = default 0 (m2 !! holder)) →
  valfilter bool_of_int m1 = valfilter bool_of_int m2.
Proof.
  intros H. apply map_eq. intros holder.
  by rewrite !valfilter_bool_lookup, H.
Qed.

(** A block range queried in two adjacent parts has the same net effect as
    the range queried at once. *)
Lemma net_getLogs_split events address holder a b c :
  a ≤ b + 1 → b ≤ c →
  net holder (getLogs events address a c)
  = net holder (getLogs events address a b)
    + net holder (getLogs events address (b + 1) c).
Proof.
  intros Hab Hbc. unfold getLogs.
  induction (events address) as [|log logs IH]; [done|].
  rewrite !filter_cons. repeat case_decide; simpl; lia.
Qed.

(** ** The claims about the ledger aggregator *)

(** C9: for every event log of the node and every contract, the balances
    folded batch by batch (the code's batches of 1000 blocks from
    [START_BLOCK] to [SNAPSHOT_BLOCK]) are the balances folded over one
    query for the whole range. *)
Theorem C9_batching_is_transparent events address :
  transfers_to_balances events address
  = transfers_to_balances_unbatched events address.
Proof.
  unfold transfers_to_balances, transfers_to_balances_unbatched.
  apply valfilter_bool_ext. intros holder. unfold folded_balances.
  change (range START_BLOCK SNAPSHOT_BLOCK 1000)
    with [10950650; 10951650; 10952650; 10953650].
  cbn [foldl]. rewrite !foldl_apply_log_lookup.
  change (Z.min (10950650 + 999) SNAPSHOT_BLOCK) with 10951649.
  change (Z.min (10951650 + 999) SNAPSHOT_BLOCK) with 10952649.
  change (Z.min (10952650 + 999) SNAPSHOT_BLOCK) with 10953649.
  change (Z.min (10953650 + 999) SNAPSHOT_BLOCK) with 10954410.
  change START_BLOCK with 10950650. change SNAPSHOT_BLOCK with 10954410.
  rewrite (net_getLogs_split events address holder 10950650 10951649 10954410)
    by lia.
  rewrite (net_getLogs_split events address holder (10951649 + 1) 10952649
             10954410) by lia.
  rewrite (net_getLogs_split events address holder (10952649 + 1) 10953649
             10954410) by lia.
  change (10951649 + 1) with 10951650. change (10952649 + 1) with 10952650.
  change (10953649 + 1) with 10953650. lia.
Qed.

(** *** Loops *)


(** An exception of a loop is an exception of its body. *)
Lemma for_each_raise_inv {A B} (body : B → A → result B) (l : list A) acc e :
  for_each body acc l = Raise e →
  ∃ acc' x, x ∈ l ∧ body acc' x = Raise e.
Proof.
  revert acc. induction l as [|y l IH]; intros acc; simpl; [done|].
  destruct (body acc y) as [acc'|e'] eqn:Hy; simpl.
  - intros (acc'' & x & Hx & He)%IH. exists acc'', x. split; [|done].
    by apply elem_of_cons; right.
  - intros [= ->]. exists acc, y. split; [|done]. by apply elem_of_cons; left.
Qed.

(** *** [min] *)



(** *** [step_01] on a ledger with a negative balance *)


Lemma step_01_token_raise_inv events balances token e :
  step_01_token events balances token = Raise e →
  e = ValueError ∨ e = AssertionError "negative balances found".
Proof.
  destruct token as [name address]. unfold step_01_token.
  rewrite lookup_insert_eq. simpl. unfold min_values.
  destruct (map_fold _ _ _) as [lowest|]; simpl; [|intros [= <-]; by left].
  destruct (0 <=? lowest); simpl; [done|]. intros [= <-]. by right.
Qed.





(** ** [step_04] and [step_05] around a pool without shares *)

Section pools.
Context (events : string → list Log) (is_uniswap is_balancer : string → bool).

Local Abbreviation step_04_contract :=
  (step_04_contract events is_uniswap is_balancer).
Local Abbreviation supply address :=
  (sum_values (transfers_to_balances events address)).

Lemma pool_replacement_raise_inv (balances : gmap string Z) value e :
  pool_replacement balances value = Raise e →
  e = AssertionError "no inflation ser".
Proof.
  destruct (decide (sum_values balances = 0)) as [Hs|Hs].
  - unfold pool_replacement. by rewrite decide_True.
  - rewrite pool_replacement_eval by done. simpl.
    case_bool_decide; [done|]. by intros [= <-].
Qed.

Lemma step_04_contract_skip replacements address value :
  supply address = 0 →
  step_04_contract replacements (address, value) = Ok replacements.
Proof.
  intros Hs. unfold step_04_contract, pool_replacement.
  destruct (negb _); [done|]. by rewrite decide_True.
Qed.

(** A contract either leaves the replacements alone or appends an entry
    for itself, and the latter only with a non-zero supply. *)
Lemma step_04_contract_ok replacements address value out :
  step_04_contract replacements (address, value) = Ok out →
  out = replacements ∨
  supply address ≠ 0 ∧ ∃ replacement, out = replacements ++ [(address, replacement)].
Proof.
  unfold step_04_contract. destruct (negb _); [intros [= <-]; by left|].
  destruct (pool_replacement _ _) as [[replacement|]|e] eqn:Hp; simpl;
    [|intros [= <-]; by left|done].
  intros [= <-]. right. split; [|by eexists].
  intros Hs. unfold pool_replacement in Hp. by rewrite decide_True in Hp.
Qed.

Lemma step_04_contract_raise_inv replacements contract e :
  step_04_contract replacements contract = Raise e →
  e = AssertionError "no inflation ser".
Proof.
  destruct contract as [address value]. unfold step_04_contract.
  destruct (negb _); [done|].
  destruct (pool_replacement _ _) as [[replacement|]|e'] eqn:Hp; simpl;
    [done..|].
  intros [= <-]. by eapply pool_replacement_raise_inv.
Qed.

(** The keys that the loop adds are, in order, contracts with a non-zero
    supply. *)
Lemma step_04_loop_keys contracts replacements out :
  for_each step_04_contract replacements contracts = Ok out →
  ∃ added, out.*1 = replacements.*1 ++ added ∧
           added `sublist_of` contracts.*1 ∧
           Forall (λ address, supply address ≠ 0) added.
Proof.
  revert replacements.
  induction contracts as [|[address value] contracts IH];
    intros replacements; cbn [for_each].
  - intros [= <-]. exists []. by rewrite app_nil_r.
  - destruct (step_04_contract replacements (address, value))
      as [mid|e] eqn:Hc; cbn [mbind result_bind]; [|done].
    intros (added & Hout & Hsub & Hall)%IH.
    apply step_04_contract_ok in Hc as [->|(Hs & replacement & ->)].
    + exists added. split; [done|]. split; [by apply sublist_cons|done].
    + exists (address :: added). rewrite Hout, fmap_app, <- app_assoc.
      split; [done|]. split; [by apply sublist_skip|by constructor].
Qed.
End pools.

Lemma add_all_lookup (balances additions : gmap string Z) user :
  add_all balances additions !! user =
    match additions !! user with
    | Some balance => Some (default 0 (balances !! user) + balance)
    | None => balances !! user
    end.
Proof.
  unfold add_all. revert user.
  apply (map_fold_weak_ind (λ r (additions : gmap string Z), ∀ user,
    r !! user = match additions !! user with
                | Some balance => Some (default 0 (balances !! user) + balance)
                | None => balances !! user
                end)).
  - intros user. by rewrite lookup_empty.
  - intros key balance m r Hkey IH user. unfold counter_add.
    rewrite !lookup_insert. case_decide as Hu.
    + subst user. by rewrite IH, Hkey.
    + apply IH.
Qed.

Lemma step_05_replacement_ok (balances : gmap string Z) remove additions v :
  balances !! remove = Some v →
  step_05_replacement balances (remove, additions)
  = Ok (add_all (delete remove balances) additions).
Proof. intros Hv. unfold step_05_replacement. by rewrite Hv. Qed.

(** [step_05] returns whenever the pools to remove are distinct holders of
    the table; a holder that is not removed keeps its entry, with the
    credits of the resolved pools added to its value. *)
Lemma step_05_spec replacements (balances : gmap string Z) :
  NoDup replacements.*1 →
  (∀ remove, remove ∈ replacements.*1 → is_Some (balances !! remove)) →
  ∃ out, step_05 balances replacements = Ok out ∧
    ∀ user value, user ∉ replacements.*1 → balances !! user = Some value →
      out !! user = Some (value + credited user replacements).
Proof.
  unfold step_05. revert balances.
  induction replacements as [|[remove additions] replacements IH];
    intros balances Hnd Hin; cbn [for_each].
  - eexists. split; [done|]. intros user value _ ->. simpl. f_equal. lia.
  - rewrite fmap_cons in Hnd, Hin. cbn [fst] in Hnd, Hin.
    apply NoDup_cons in Hnd as [Hfresh Hnd].
    destruct (Hin remove) as [v Hv]; [by apply elem_of_cons; left|].
    rewrite (step_05_replacement_ok _ _ _ _ Hv). cbn [mbind result_bind].
    destruct (IH (add_all (delete remove balances) additions) Hnd)
      as (out & -> & Hout).
    { intros other Hother.
      destruct (Hin other) as [w Hw]; [by apply elem_of_cons; right|].
      assert (remove ≠ other) by (intros ->; done).
      rewrite add_all_lookup, lookup_delete_ne, Hw by done.
      by destruct (additions !! other). }
    exists out. split; [done|]. intros user value Huser Hvalue.
    rewrite fmap_cons in Huser. cbn [fst] in Huser.
    apply not_elem_of_cons in Huser as [Hne Huser].
    cbn [credited foldr snd]. fold (credited user replacements).
    destruct (additions !! user) as [credit|] eqn:Hcredit;
      cbn [default from_option id].
    + rewrite (Hout user (value + credit)); [f_equal; lia|done|].
      by rewrite add_all_lookup, Hcredit, lookup_delete_ne, Hvalue.
    + rewrite (Hout user value); [f_equal; lia|done|].
      by rewrite add_all_lookup, Hcredit, lookup_delete_ne.
Qed.

Lemma credited_none user (replacements : list (string * gmap string Z)) :
  Forall (λ item, item.2 !! user = None) replacements →
  credited user replacements = 0.
Proof.
  induction 1 as [|item replacements Hitem _ IH]; [done|].
  simpl. rewrite Hitem, IH. done.
Qed.

(** C10, as stated, fails in the value the pool keeps: a pool without
    shares is itself credited when it holds shares of a pool that is
    resolved. ["0xP"] (value 10, no share) holds one of the two shares of
    ["0xQ"] (value 40): [step_04] gives no entry for ["0xP"], and after
    [step_05] it holds 30, not its original 10. *)
Lemma C10_counterexample :
  is_uniswap_C10_cross "0xP" || false = true ∧
  sum_values (transfers_to_balances events_C10_cross "0xP") = 0 ∧
  balances_C10_cross !! "0xP" = Some 10 ∧
  ∃ replacements out,
    step_04 events_C10_cross is_uniswap_C10_cross (λ _, false)
      [("0xP", 10); ("0xQ", 40)] = Ok replacements ∧
    ("0xP" ∉ replacements.*1) ∧
    step_05 balances_C10_cross replacements = Ok out ∧
    out !! "0xP" = Some 30 ∧
    out !! "0xP" ≠ Some 10.
Proof.
  split; [by vm_compute|]. split; [by vm_compute|]. split; [by vm_compute|].
  exists [("0xQ", {[ "0xP" := 20; "0xa" := 20 ]})].
  exists {[ "0xP" := 30; "0xa" := 20 ]}.
  split; [by vm_compute|]. split; [by_compute|].
  split; [by vm_compute|]. split; by vm_compute.
Qed.

(** C10 (amended): a recognized pool whose share ledger sums to zero is
    skipped by [step_04]: the loop body returns the replacements unchanged,
    no exception of [step_04] is a ZeroDivisionError, and the result has no
    entry for the pool; [step_05] then returns and the pool is still a
    holder of the merged table. Its value there is its original value plus
    the credits of the resolved pools that list it among their own share
    holders, as for any holder; it is the original value when no resolved
    pool lists it. *)
Theorem C10_zero_supply_pool_is_kept events is_uniswap is_balancer
    (contracts : list (string * Z)) (balances : gmap string Z) address value :
  NoDup contracts.*1 →
  (∀ a v, (a, v) ∈ contracts → balances !! a = Some v) →
  (address, value) ∈ contracts →
  is_uniswap address || is_balancer address = true →
  sum_values (transfers_to_balances events address) = 0 →
  (∀ replacements,
     step_04_contract events is_uniswap is_balancer replacements
       (address, value) = Ok replacements) ∧
  step_04 events is_uniswap is_balancer contracts ≠ Raise ZeroDivisionError ∧
  ∀ replacements,
    step_04 events is_uniswap is_balancer contracts = Ok replacements →
    (address ∉ replacements.*1) ∧
    ∃ out, step_05 balances replacements = Ok out ∧
           out !! address = Some (value + credited address replacements) ∧
           (Forall (λ item, item.2 !! address = None) replacements →
            out !! address = Some value).
Proof.
  intros Hnd Hsub Hin Hrec Hzero. split; [|split].
  - intros replacements. by apply step_04_contract_skip.
  - intros (? & ? & _ & Hraise)%for_each_raise_inv.
    by apply step_04_contract_raise_inv in Hraise.
  - intros replacements (added & Hkeys & Hadded & Hall)%step_04_loop_keys.
    simpl in Hkeys.
    assert (address ∉ replacements.*1) as Hfresh.
    { rewrite Hkeys. intros Ha. rewrite Forall_forall in Hall.
      by apply (Hall address). }
    split; [done|].
    destruct (step_05_spec replacements balances) as (out & Hout & Hkept).
    { rewrite Hkeys. by eapply sublist_NoDup. }
    { intros remove Hremove. rewrite Hkeys in Hremove.
      apply (elem_of_sublist _ _ _ Hremove) in Hadded.
      apply list_elem_of_fmap in Hadded as ([a v] & -> & Hav). eauto. }
    exists out. split; [done|].
    assert (out !! address = Some (value + credited address replacements))
      as Hvalue by (apply Hkept; eauto).
    split; [done|]. intros Hnone.
    rewrite Hvalue, credited_none by done. f_equal. lia.
Qed.

Lemma C10_zero_supply_pool_witness :
  (∀ replacements,
     step_04_contract events_C10 is_uniswap_C10 (λ _, false) replacements
       ("0xP", 10) = Ok replacements) ∧
  step_04 events_C10 is_uniswap_C10 (λ _, false) [("0xP", 10)]
    ≠ Raise ZeroDivisionError ∧
  ∀ replacements,
    step_04 events_C10 is_uniswap_C10 (λ _, false) [("0xP", 10)]
      = Ok replacements →
    ("0xP" ∉ replacements.*1) ∧
    ∃ out, step_05 balances_C10 replacements = Ok out ∧
           out !! "0xP" = Some (10 + credited "0xP" replacements) ∧
           (Forall (λ item, item.2 !! "0xP" = None) replacements →
            out !! "0xP" = Some 10).
Proof.
  apply (C10_zero_supply_pool_is_kept events_C10 is_uniswap_C10 (λ _, false)
           [("0xP", 10)] balances_C10 "0xP" 10).
  - by_compute.
  - intros a v [= -> ->]%list_elem_of_singleton. by vm_compute.
  - by apply list_elem_of_singleton.
  - by vm_compute.
  - by vm_compute.
Defined.

(** ** The Merkle tree *)

(** *** The order of [bytes] *)

Lemma to_N_inj x y : Byte.to_N x = Byte.to_N y → x = y.
Proof.
  intros H. apply (inj Some).
  by rewrite <- (Byte.of_to_N x), <- (Byte.of_to_N y), H.
Qed.

Lemma bytes_le_total a b :
  MerkleTree.bytes_le a b ∨ MerkleTree.bytes_le b a.
Proof.
  unfold MerkleTree.bytes_le. revert b.
  induction a as [|x a IH]; intros [|y b]; simpl; auto.
  destruct (N.ltb_spec (Byte.to_N x) (Byte.to_N y)),
    (N.ltb_spec (Byte.to_N y) (Byte.to_N x)); auto; lia.
Qed.

Lemma bytes_le_antisymm a b :
  MerkleTree.bytes_le a b → MerkleTree.bytes_le b a → a = b.
Proof.
  unfold MerkleTree.bytes_le. revert b.
  induction a as [|x a IH]; intros [|y b]; simpl; try done.
  destruct (N.ltb_spec (Byte.to_N x) (Byte.to_N y)),
    (N.ltb_spec (Byte.to_N y) (Byte.to_N x)); try done.
  intros ??. f_equal; [apply to_N_inj; lia|by apply IH].
Qed.

Lemma bytes_le_trans a b c :
  MerkleTree.bytes_le a b → MerkleTree.bytes_le b c → MerkleTree.bytes_le a c.
Proof.
  unfold MerkleTree.bytes_le. revert b c.
  induction a as [|x a IH]; intros [|y b] [|z c]; simpl; try done.
  destruct (N.ltb_spec (Byte.to_N x) (Byte.to_N y)),
    (N.ltb_spec (Byte.to_N y) (Byte.to_N x)),
    (N.ltb_spec (Byte.to_N y) (Byte.to_N z)),
    (N.ltb_spec (Byte.to_N z) (Byte.to_N y)),
    (N.ltb_spec (Byte.to_N x) (Byte.to_N z)),
    (N.ltb_spec (Byte.to_N z) (Byte.to_N x)); try done; try lia.
  apply IH.
Qed.

Global Instance bytes_le_Total : Total MerkleTree.bytes_le := bytes_le_total.
Global Instance bytes_le_AntiSymm : AntiSymm (=) MerkleTree.bytes_le :=
  bytes_le_antisymm.
Global Instance bytes_le_Transitive : Transitive MerkleTree.bytes_le :=
  bytes_le_trans.

Lemma sorted_pair a b :
  MerkleTree.sorted [a; b]
  = if decide (MerkleTree.bytes_le a b) then [a; b] else [b; a].
Proof. unfold MerkleTree.sorted. cbn. by destruct (decide _). Qed.

(** The sorted pair does not depend on the order of the two hashes. *)
Lemma sorted_pair_comm a b : MerkleTree.sorted [a; b] = MerkleTree.sorted [b; a].
Proof.
  rewrite !sorted_pair.
  destruct (decide (MerkleTree.bytes_le a b)) as [Hab|Hab],
    (decide (MerkleTree.bytes_le b a)) as [Hba|Hba]; try done.
  - by rewrite (bytes_le_antisymm a b).
  - destruct (bytes_le_total a b); done.
Qed.

(** [sorted(set(...))] depends on the members only. *)
Lemma sorted_set_of_ext l1 l2 :
  (∀ x, x ∈ l1 ↔ x ∈ l2) →
  MerkleTree.sorted (MerkleTree.set_of l1) = MerkleTree.sorted (MerkleTree.set_of l2).
Proof.
  intros Hmem. unfold MerkleTree.sorted, MerkleTree.set_of.
  apply (Sorted_unique MerkleTree.bytes_le).
  - apply Sorted_merge_sort, _.
  - apply Sorted_merge_sort, _.
  - rewrite !merge_sort_Permutation.
    apply NoDup_Permutation; [apply NoDup_remove_dups..|].
    intros x. by rewrite !elem_of_remove_dups.
Qed.

Lemma elem_of_sorted_set_of l x :
  x ∈ MerkleTree.sorted (MerkleTree.set_of l) ↔ x ∈ l.
Proof.
  unfold MerkleTree.sorted, MerkleTree.set_of.
  by rewrite merge_sort_Permutation, elem_of_remove_dups.
Qed.

Lemma index_elem_of l x :
  x ∈ l → ∃ idx, MerkleTree.index l x = Ok idx ∧ l !! idx = Some x.
Proof.
  induction l as [|y l IH]; [by intros ?%elem_of_nil|].
  intros Hx. simpl. destruct (decide (y = x)) as [->|Hne].
  - by exists 0%nat.
  - apply elem_of_cons in Hx as [->|Hx]; [done|].
    destruct (IH Hx) as (idx & -> & Hidx). by exists (S idx).
Qed.

(** *** Layers *)

(** Lists two items at a time. *)
Lemma list_pair_ind {A} (P : list A → Prop) :
  P [] → (∀ a, P [a]) → (∀ a b l, P l → P (a :: b :: l)) → ∀ l, P l.
Proof.
  intros Hnil Hone Hcons l.
  assert (P l ∧ ∀ a, P (a :: l)) as [? _]; [|done].
  induction l as [|b l [IH1 IH2]]; [by split|]. split; [apply IH2|].
  intros a. by apply Hcons.
Qed.

Section merkle.
Context (keccak : MerkleTree.bytes → MerkleTree.bytes).

Local Abbreviation get_next_layer := (MerkleTree.get_next_layer keccak).
Local Abbreviation get_layers := (MerkleTree.get_layers keccak).
Local Abbreviation proof_walk := (MerkleTree.proof_walk keccak).

Lemma get_next_layer_nil : get_next_layer [] = [].
Proof. reflexivity. Qed.

Lemma get_next_layer_one a : get_next_layer [a] = [a].
Proof. reflexivity. Qed.

Lemma get_next_layer_cons2 a b elements :
  get_next_layer (a :: b :: elements)
  = keccak (mjoin (MerkleTree.sorted [a; b])) :: get_next_layer elements.
Proof. unfold MerkleTree.get_next_layer. by destruct elements. Qed.

(** The item at [idx] goes to [idx / 2] of the next layer: combined with
    the sibling that [get_proof] emits at this layer, or as it is when
    there is none. *)
Lemma get_next_layer_lookup layer idx x :
  layer !! idx = Some x →
  get_next_layer layer !! (idx / 2)%nat
  = Some (proof_walk x (MerkleTree.get_proof_loop [layer] idx)).
Proof.
  revert idx. induction layer as [|a|a b layer IH] using list_pair_ind;
    intros idx Hx.
  - done.
  - destruct idx as [|idx]; [|done]. by simplify_eq/=.
  - rewrite get_next_layer_cons2. destruct idx as [|[|idx]].
    + by simplify_eq/=.
    + simplify_eq/=. by rewrite sorted_pair_comm.
    + replace (S (S idx) / 2)%nat with (S (idx / 2))%nat
        by (change (S (S idx)) with (1 * 2 + idx)%nat;
            by rewrite Nat.div_add_l by lia).
      simpl in Hx. rewrite lookup_cons_ne_0 by done. cbn [Nat.pred].
      rewrite (IH idx Hx). do 2 f_equal.
      cbn [MerkleTree.get_proof_loop]. rewrite !app_nil_r.
      change (Nat.even (S (S idx))) with (Nat.even idx).
      destruct (Nat.even idx) eqn:Heven.
      * change (S (S idx) + 1)%nat with (S (S (idx + 1))). cbn [length lookup].
        by repeat case_bool_decide; try lia.
      * assert (idx ≠ 0)%nat by (by intros ->).
        replace (S (S idx) - 1)%nat with (S (S (idx - 1))) by lia.
        cbn [length lookup].
        by repeat case_bool_decide; try lia.
Qed.

Lemma get_layers_unfold elements :
  get_layers elements =
    if decide (1 < length elements)%nat
    then elements :: get_layers (get_next_layer elements)
    else [elements].
Proof.
  rewrite MerkleTree.get_layers_equation_1.
  by destruct (decide (1 < length elements)%nat).
Qed.

Lemma get_next_layer_length elements :
  length (get_next_layer elements) = ((length elements + 1) / 2)%nat.
Proof.
  induction elements as [|a|a b elements IH] using list_pair_ind; [done..|].
  rewrite get_next_layer_cons2. cbn [length]. rewrite IH.
  replace (S (S (length elements)) + 1)%nat
    with (1 * 2 + (length elements + 1))%nat by lia.
  by rewrite Nat.div_add_l by lia.
Qed.

Lemma get_layers_last_Some elements : is_Some (last (get_layers elements)).
Proof.
  rewrite get_layers_unfold. destruct (decide _); [|by eexists].
  rewrite last_cons. destruct (last _); by eexists.
Qed.

Lemma get_proof_loop_cons layer layers idx :
  MerkleTree.get_proof_loop (layer :: layers) idx
  = MerkleTree.get_proof_loop [layer] idx
    ++ MerkleTree.get_proof_loop layers (idx / 2)%nat.
Proof. cbn [MerkleTree.get_proof_loop]. by rewrite app_nil_r. Qed.

Lemma proof_walk_app leaf proof1 proof2 :
  proof_walk leaf (proof1 ++ proof2) = proof_walk (proof_walk leaf proof1) proof2.
Proof. apply foldl_app. Qed.

(** The loop of [get_proof] over the layers above [layer], started at the
    index of an item of [layer], yields a proof whose walk from that item
    ends at the only item of the last layer. *)
Lemma proof_walk_layers layer idx x :
  layer !! idx = Some x →
  ∃ top, last (get_layers layer) = Some [top] ∧
         proof_walk x (MerkleTree.get_proof_loop (get_layers layer) idx) = top.
Proof.
  remember (length layer) as n eqn:Hn. revert layer Hn idx x.
  induction (lt_wf n) as [n _ IH]; intros layer -> idx x Hx.
  rewrite get_layers_unfold.
  destruct (decide (1 < length layer)%nat) as [Hlong|Hshort].
  - pose proof (get_next_layer_lookup layer idx x Hx) as Hup.
    destruct (IH (length (get_next_layer layer))) with (3 := Hup)
      as (top & Hlast & Hwalk); [|done|].
    { rewrite get_next_layer_length.
      apply Nat.Div0.div_lt_upper_bound. lia. }
    exists top. split.
    + by rewrite last_cons, Hlast.
    + rewrite <- Hwalk.
      by rewrite get_proof_loop_cons, proof_walk_app.
  - destruct layer as [|y [|z layer]]; simpl in *; [done| |lia].
    destruct idx; [|done]. simplify_eq/=. by exists x.
Qed.

End merkle.

(** ** The claims about the Merkle tree *)

(** C5: for every list of leaves and every leaf in it, [get_proof] returns
    a proof, the tree has a root, and the walk from the leaf hash that
    combines the current hash with each item of the proof in turn (keccak
    of the concatenation of the sorted pair) ends at the root; a layer at
    which the leaf's ancestor is the carried last item contributes no item
    to the proof, so the current hash goes through it as it is. *)
Theorem C5_proof_walk_reaches_root keccak (els : list MerkleTree.bytes) el :
  el ∈ els →
  ∃ proof top,
    MerkleTree.get_proof keccak (MerkleTree.new keccak els) el = Ok proof ∧
    MerkleTree.root (MerkleTree.new keccak els) = Ok top ∧
    MerkleTree.proof_walk keccak (keccak el) proof = top.
Proof.
  intros Hel.
  set (elements := MerkleTree.sorted (MerkleTree.set_of (keccak <$> els))).
  assert (keccak el ∈ elements) as Hin
    by (apply elem_of_sorted_set_of; by apply list_elem_of_fmap_2).
  destruct (index_elem_of _ _ Hin) as (idx & Hindex & Hidx).
  destruct (proof_walk_layers keccak elements idx (keccak el) Hidx)
    as (top & Hlast & Hwalk).
  exists (MerkleTree.get_proof_loop (MerkleTree.get_layers keccak elements) idx),
    top.
  unfold MerkleTree.get_proof, MerkleTree.root, MerkleTree.new.
  cbn [MerkleTree.elements MerkleTree.layers]. fold elements.
  rewrite Hindex, Hlast. done.
Qed.

Lemma C5_proof_walk_witness :
  ∃ proof top,
    MerkleTree.get_proof keccak_toy (MerkleTree.new keccak_toy leaves_C5)
      [Byte.x09] = Ok proof ∧
    MerkleTree.root (MerkleTree.new keccak_toy leaves_C5) = Ok top ∧
    MerkleTree.proof_walk keccak_toy (keccak_toy [Byte.x09]) proof = top.
Proof.
  apply (C5_proof_walk_reaches_root keccak_toy leaves_C5 [Byte.x09]).
  by_compute.
Defined.

(** C6: two lists of leaves with the same members, in any order and with
    any repetitions, give the same tree and so the same root. *)
Theorem C6_root_independent_of_order keccak (els1 els2 : list MerkleTree.bytes) :
  (∀ el, el ∈ els1 ↔ el ∈ els2) →
  MerkleTree.new keccak els1 = MerkleTree.new keccak els2 ∧
  MerkleTree.root (MerkleTree.new keccak els1)
  = MerkleTree.root (MerkleTree.new keccak els2).
Proof.
  intros Hmem.
  assert (MerkleTree.new keccak els1 = MerkleTree.new keccak els2) as ->;
    [|done].
  unfold MerkleTree.new.
  rewrite (sorted_set_of_ext (keccak <$> els1) (keccak <$> els2)); [done|].
  intros h. rewrite !list_elem_of_fmap.
  split; intros (el & -> & Hel); exists el; (split; [done|]); by apply Hmem.
Qed.

Lemma C6_root_independent_witness :
  MerkleTree.new keccak_toy [[Byte.x05]; [Byte.x03]; [Byte.x05]; [Byte.x01]]
  = MerkleTree.new keccak_toy [[Byte.x01]; [Byte.x05]; [Byte.x03]] ∧
  MerkleTree.root
    (MerkleTree.new keccak_toy [[Byte.x05]; [Byte.x03]; [Byte.x05]; [Byte.x01]])
  = MerkleTree.root
      (MerkleTree.new keccak_toy [[Byte.x01]; [Byte.x05]; [Byte.x03]]).
Proof.
  apply (C6_root_independent_of_order keccak_toy
           [[Byte.x05]; [Byte.x03]; [Byte.x05]; [Byte.x01]]
           [[Byte.x01]; [Byte.x05]; [Byte.x03]]).
  intros el. rewrite !elem_of_cons, !elem_of_nil. tauto.
Defined.

(** C7: a layer with an odd number of items is its paired part followed by
    one last item; the next layer is the next layer of the paired part, one
    hash for every pair, followed by that same last item, once and as it
    is: [combined_hash] returns it without hashing. *)
Theorem C7_odd_item_is_carried keccak (layer : list MerkleTree.bytes) :
  Nat.Odd (length layer) →
  ∃ paired final,
    layer = paired ++ [final] ∧
    MerkleTree.get_next_layer keccak layer
      = MerkleTree.get_next_layer keccak paired ++ [final] ∧
    length (MerkleTree.get_next_layer keccak paired)
      = (length paired / 2)%nat ∧
    MerkleTree.combined_hash keccak (Some final) None = Some final.
Proof.
  induction layer as [|a|a b layer IH] using list_pair_ind; intros Hodd.
  - by destruct Hodd as [[|?] ?].
  - by exists [], a.
  - destruct IH as (paired & final & -> & Hnext & Hlen & Hcarry).
    { destruct Hodd as [k Hk]. exists (k - 1)%nat. simpl in Hk. lia. }
    exists (a :: b :: paired), final.
    rewrite !get_next_layer_cons2, Hnext. cbn [length]. rewrite Hlen.
    split; [done|]. split; [done|]. split; [|done].
    change (S (S (length paired))) with (1 * 2 + length paired)%nat.
    rewrite Nat.div_add_l by lia. lia.
Qed.

Lemma C7_odd_item_witness :
  ∃ paired final,
    [[Byte.x01]; [Byte.x02]; [Byte.x03]] = paired ++ [final] ∧
    MerkleTree.get_next_layer keccak_toy [[Byte.x01]; [Byte.x02]; [Byte.x03]]
      = MerkleTree.get_next_layer keccak_toy paired ++ [final] ∧
    length (MerkleTree.get_next_layer keccak_toy paired)
      = (length paired / 2)%nat ∧
    MerkleTree.combined_hash keccak_toy (Some final) None = Some final.
Proof.
  apply (C7_odd_item_is_carried keccak_toy
           [[Byte.x01]; [Byte.x02]; [Byte.x03]]).
  exists 1%nat. reflexivity.
Defined.

(** * Further properties of the code *)

(** ** [transfers_to_balances] *)

Lemma total_app f logs1 logs2 :
  total f (logs1 ++ logs2) = total f logs1 + total f logs2.
Proof.
  induction logs1 as [|log logs1 IH]; simpl; [done|]. rewrite IH. lia.
Qed.

Lemma total_Permutation f logs1 logs2 :
  logs1 ≡ₚ logs2 → total f logs1 = total f logs2.
Proof. induction 1; simpl; lia. Qed.

Lemma total_getLogs_split f events address a b c :
  a ≤ b + 1 → b ≤ c →
  total f (getLogs events address a c)
  = total f (getLogs events address a b)
    + total f (getLogs events address (b + 1) c).
Proof.
  intros Hab Hbc. unfold getLogs.
  induction (events address) as [|log logs IH]; [done|].
  rewrite !filter_cons. repeat case_decide; simpl; lia.
Qed.

(** The batches of the loop partition the block range: a sum over the
    events of the four batches is the sum over the events of the range. *)
Lemma total_batches f events address :
  total f (getLogs events address 10950650 10951649)
  + total f (getLogs events address 10951650 10952649)
  + total f (getLogs events address 10952650 10953649)
  + total f (getLogs events address 10953650 10954410)
  = total f (getLogs events address START_BLOCK SNAPSHOT_BLOCK).
Proof.
  change START_BLOCK with 10950650. change SNAPSHOT_BLOCK with 10954410.
  rewrite (total_getLogs_split f events address 10950650 10951649 10954410)
    by lia.
  rewrite (total_getLogs_split f events address (10951649 + 1) 10952649
             10954410) by lia.
  rewrite (total_getLogs_split f events address (10952649 + 1) 10953649
             10954410) by lia.
  change (10951649 + 1) with 10951650. change (10952649 + 1) with 10952650.
  change (10953649 + 1) with 10953650. lia.
Qed.

Lemma folded_balances_unfold events address :
  folded_balances events address
  = foldl apply_log
      (foldl apply_log
         (foldl apply_log
            (foldl apply_log ∅ (getLogs events address 10950650 10951649))
            (getLogs events address 10951650 10952649))
         (getLogs events address 10952650 10953649))
      (getLogs events address 10953650 10954410).
Proof. reflexivity. Qed.

(** The counter after the loop holds for every holder the net of the
    events of the range. *)
Lemma folded_balances_lookup events address holder :
  default 0 (folded_balances events address !! holder)
  = net holder (getLogs events address START_BLOCK SNAPSHOT_BLOCK).
Proof.
  rewrite folded_balances_unfold, !foldl_apply_log_lookup, lookup_empty.
  pose proof (total_batches (delta holder) events address) as H.
  unfold total in H. unfold net. simpl. lia.
Qed.

(** X1: the balance that [transfers_to_balances] gives a holder is the net
    of the events of the contract in the blocks [START_BLOCK] to
    [SNAPSHOT_BLOCK]: what it received minus what it sent, events from or
    to the zero address counting for the other side only; a holder whose
    net is zero has no entry. *)
Theorem X1_balance_is_net_of_range events address holder :
  transfers_to_balances events address !! holder
  = if decide (net holder (getLogs events address START_BLOCK SNAPSHOT_BLOCK) = 0)
    then None
    else Some (net holder (getLogs events address START_BLOCK SNAPSHOT_BLOCK)).
Proof.
  unfold transfers_to_balances.
  by rewrite valfilter_bool_lookup, folded_balances_lookup.
Qed.

Lemma delta_zero_address log : delta ZERO_ADDRESS log = 0.
Proof. unfold delta. repeat destruct (decide _); try lia; tauto. Qed.

Lemma net_zero_address logs : net ZERO_ADDRESS logs = 0.
Proof.
  induction logs as [|log logs IH]; [done|].
  change (net ZERO_ADDRESS (log :: logs))
    with (delta ZERO_ADDRESS log + net ZERO_ADDRESS logs).
  rewrite delta_zero_address, IH. done.
Qed.

(** X2: the result of [transfers_to_balances] never has the zero address
    as a holder and never holds a zero balance. *)
Theorem X2_no_zero_address_no_zero_balance events address :
  transfers_to_balances events address !! ZERO_ADDRESS = None ∧
  ∀ holder, transfers_to_balances events address !! holder ≠ Some 0.
Proof.
  unfold transfers_to_balances. split.
  - rewrite valfilter_bool_lookup, folded_balances_lookup, net_zero_address.
    done.
  - intros holder. rewrite valfilter_bool_lookup.
    destruct (decide _); [done|]. congruence.
Qed.

Lemma sum_values_delete (d : gmap string Z) k :
  sum_values d = sum_values (delete k d) + default 0 (d !! k).
Proof.
  destruct (d !! k) as [v|] eqn:Hk; simpl.
  - rewrite <- (insert_delete_id d k v Hk) at 1.
    by rewrite sum_values_insert by apply lookup_delete_eq.
  - rewrite delete_id by done. lia.
Qed.

Lemma sum_values_counter_add (d : gmap string Z) k a :
  sum_values (counter_add d k a) = sum_values d + a.
Proof.
  unfold counter_add. rewrite <- insert_delete_eq.
  rewrite sum_values_insert by apply lookup_delete_eq.
  rewrite (sum_values_delete d k). lia.
Qed.

Lemma sum_values_apply_log (d : gmap string Z) log :
  sum_values (apply_log d log) = sum_values d + mint_amount log - burn_amount log.
Proof.
  unfold apply_log, mint_amount, burn_amount.
  repeat destruct (decide _); rewrite ?sum_values_counter_add;
    try lia; tauto.
Qed.

Lemma sum_values_foldl_apply_log logs (d : gmap string Z) :
  sum_values (foldl apply_log d logs)
  = sum_values d + total mint_amount logs - total burn_amount logs.
Proof.
  revert d. induction logs as [|log logs IH]; intros d; simpl; [lia|].
  rewrite IH, sum_values_apply_log. lia.
Qed.

Lemma sum_values_valfilter_bool (d : gmap string Z) :
  sum_values (valfilter bool_of_int d) = sum_values d.
Proof.
  unfold valfilter. induction d as [|k v d Hk IH] using map_ind.
  - by rewrite map_filter_empty.
  - rewrite (sum_values_insert d) by done.
    destruct (bool_of_int v) eqn:Hv.
    + rewrite map_filter_insert_True by done.
      rewrite sum_values_insert; [lia|]. by rewrite map_lookup_filter, Hk.
    + rewrite map_filter_insert_not'; [|simpl; congruence|].
      * unfold bool_of_int in Hv. apply negb_false_iff, Z.eqb_eq in Hv. lia.
      * intros y. by rewrite Hk.
Qed.

(** X3: the balances of [transfers_to_balances] add up to what was minted
    minus what was burnt in the block range; a transfer between two
    holders changes no total. *)
Theorem X3_balances_sum_to_mints_minus_burns events address :
  sum_values (transfers_to_balances events address)
  = total mint_amount (getLogs events address START_BLOCK SNAPSHOT_BLOCK)
    - total burn_amount (getLogs events address START_BLOCK SNAPSHOT_BLOCK).
Proof.
  unfold transfers_to_balances.
  rewrite sum_values_valfilter_bool, folded_balances_unfold.
  rewrite !sum_values_foldl_apply_log, sum_values_empty.
  pose proof (total_batches mint_amount events address).
  pose proof (total_batches burn_amount events address). lia.
Qed.

(** X4: the result depends on the events of the block range only, and not
    on their order: two nodes whose logs for the contract have the same
    events in [START_BLOCK..SNAPSHOT_BLOCK], in any order, give the same
    balances, whatever they hold outside the range. *)
Theorem X4_only_the_range_counts events1 events2 address :
  getLogs events1 address START_BLOCK SNAPSHOT_BLOCK
    ≡ₚ getLogs events2 address START_BLOCK SNAPSHOT_BLOCK →
  transfers_to_balances events1 address = transfers_to_balances events2 address.
Proof.
  intros Hperm. unfold transfers_to_balances. apply valfilter_bool_ext.
  intros holder. rewrite !folded_balances_lookup.
  apply (total_Permutation (delta holder)), Hperm.
Qed.

Lemma X4_only_the_range_witness :
  transfers_to_balances events_C3 "0xP" = transfers_to_balances events_X4 "0xP".
Proof.
  apply (X4_only_the_range_counts events_C3 events_X4 "0xP").
  by_compute.
Defined.

(** ** [step_01] *)

(** [min] of the values: raises on the empty dict only, and otherwise is
    a value of the dict that no value is below. *)
Lemma min_values_spec (d : gmap string Z) :
  match min_values d with
  | Ok lowest =>
      (∃ k, d !! k = Some lowest) ∧ ∀ k v, d !! k = Some v → lowest ≤ v
  | Raise e => d = ∅ ∧ e = ValueError
  end.
Proof.
  unfold min_values.
  assert (match map_fold (λ _ v acc, Some (from_option (Z.min v) v acc)) None d
          with
          | Some lowest =>
              (∃ k, d !! k = Some lowest) ∧
              ∀ k v, d !! k = Some v → lowest ≤ v
          | None => d = ∅
          end) as H.
  { apply (map_fold_weak_ind (λ r (d : gmap string Z),
      match r with
      | Some lowest =>
          (∃ k, d !! k = Some lowest) ∧
          ∀ k v, d !! k = Some v → lowest ≤ v
      | None => d = ∅
      end)); [done|].
    intros i x m r Hi IH. destruct r as [lowest|]; simpl.
    - destruct IH as [[k Hk] Hlow]. split.
      + destruct (Z.min_spec x lowest) as [[_ ->]|[_ ->]].
        * exists i. apply lookup_insert_eq.
        * exists k. rewrite lookup_insert_ne; [done|]. intros ->. congruence.
      + intros j w. rewrite lookup_insert.
        case_decide; [intros [= <-]; lia|]. intros Hw%Hlow. lia.
    - subst m. split.
      + exists i. apply lookup_insert_eq.
      + intros j w. rewrite lookup_insert.
        case_decide; [intros [= <-]; lia|]. by rewrite lookup_empty. }
  destruct (map_fold _ _ _); [done|]. by split.
Qed.

Lemma step_01_token_ok events balances name address out :
  step_01_token events balances (name, address) = Ok out ↔
  ledger_passes (transfers_to_balances events address) ∧
  out = <[name := transfers_to_balances events address]> balances.
Proof.
  unfold step_01_token, ledger_passes. rewrite lookup_insert_eq. simpl.
  pose proof (min_values_spec (transfers_to_balances events address)) as Hmin.
  destruct (min_values _) as [lowest|e]; simpl.
  - destruct Hmin as [[k Hk] Hlow]. destruct (Z.leb_spec 0 lowest); simpl.
    + split.
      * intros [= <-]. split; [|done]. split.
        -- intros Hempty. by rewrite Hempty, lookup_empty in Hk.
        -- intros holder balance Hb%Hlow. lia.
      * by intros [_ ->].
    + split; [done|]. intros [[_ Hnn] _]. specialize (Hnn k lowest Hk). lia.
  - destruct Hmin as [-> _]. split; [done|]. by intros [[? _] _].
Qed.

Lemma step_01_loop_ok events tokens balances out :
  for_each (step_01_token events) balances tokens = Ok out ↔
  Forall (λ token, ledger_passes (transfers_to_balances events token.2)) tokens ∧
  out = foldl (λ balances token,
                 <[token.1 := transfers_to_balances events token.2]> balances)
          balances tokens.
Proof.
  revert balances. induction tokens as [|[name address] tokens IH];
    intros balances; cbn [for_each foldl].
  - split; [intros [= <-]|intros [_ ->]]; by split.
  - destruct (step_01_token events balances (name, address)) as [mid|e] eqn:Ht;
      cbn [mbind result_bind].
    + apply step_01_token_ok in Ht as [Hpass ->]. rewrite IH, Forall_cons.
      simpl. tauto.
    + split; [done|]. rewrite Forall_cons. intros [[Hpass _] _].
      assert (step_01_token events balances (name, address)
              = Ok (<[name := transfers_to_balances events address]> balances))
        as Hok by (by apply step_01_token_ok).
      congruence.
Qed.

(** X5: when [step_01] returns, its result has for each of the six tokens,
    under the token's name, the balances of the token's contract, and
    nothing else; every one of these ledgers has a holder and all its
    balances are positive. *)
Theorem X5_step_01_result events out :
  step_01 events = Ok out →
  (∀ name address, (name, address) ∈ TOKENS →
     out !! name = Some (transfers_to_balances events address) ∧
     transfers_to_balances events address ≠ ∅ ∧
     ∀ holder balance,
       transfers_to_balances events address !! holder = Some balance →
       0 < balance) ∧
  ∀ name, is_Some (out !! name) → name ∈ TOKENS.*1.
Proof.
  unfold step_01. intros [Hpass ->]%step_01_loop_ok. split.
  - intros name address Hin.
    rewrite Forall_forall in Hpass.
    destruct (Hpass _ Hin) as [Hne Hnn]. simpl in Hne, Hnn.
    split; [|split; [done|]].
    + unfold TOKENS in Hin |- *. cbn [foldl fst snd].
      repeat (apply elem_of_cons in Hin as [[= -> ->]|Hin];
              [by repeat (rewrite lookup_insert_ne by done);
                  rewrite lookup_insert_eq|]).
      by apply elem_of_nil in Hin.
    + intros holder balance Hb. specialize (Hnn holder balance Hb).
      unfold transfers_to_balances in Hb.
      rewrite valfilter_bool_lookup in Hb.
      destruct (decide _) as [|Hnz]; [done|]. injection Hb as Hb. lia.
  - intros name. unfold TOKENS. cbn [foldl fst snd fmap list_fmap].
    rewrite !lookup_insert.
    repeat case_decide; subst; try (intros _; rewrite !elem_of_cons; tauto).
    rewrite lookup_empty. by intros [? ?].
Qed.

Lemma X5_step_01_result_witness :
  ∃ out : gmap string (gmap string Z),
    step_01 events_X5 = Ok out ∧
    (∀ name address, (name, address) ∈ TOKENS →
       out !! name = Some (transfers_to_balances events_X5 address) ∧
       transfers_to_balances events_X5 address ≠ ∅ ∧
       ∀ holder balance,
         transfers_to_balances events_X5 address !! holder = Some balance →
         0 < balance) ∧
    ∀ name, is_Some (out !! name) → name ∈ TOKENS.*1.
Proof.
  eexists. split; [by vm_compute|].
  apply (X5_step_01_result events_X5). by vm_compute.
Defined.

(** X6: [step_01] returns exactly when the ledger of every token has at
    least one holder and no negative balance; otherwise it raises, and
    what it raises is the ValueError of [min] on an empty ledger or the
    assertion error on a negative balance. *)
Theorem X6_step_01_returns_iff events :
  ((∃ out, step_01 events = Ok out) ↔
   ∀ name address, (name, address) ∈ TOKENS →
     ledger_passes (transfers_to_balances events address)) ∧
  ∀ e, step_01 events = Raise e →
       e = ValueError ∨ e = AssertionError "negative balances found".
Proof.
  split.
  - unfold step_01. split.
    + intros [out [Hpass _]%step_01_loop_ok] name address Hin.
      rewrite Forall_forall in Hpass. apply (Hpass _ Hin).
    + intros Hpass. eexists. apply step_01_loop_ok. split; [|done].
      apply Forall_forall. intros [name address]. apply Hpass.
  - intros e (acc & token & _ & He)%for_each_raise_inv.
    by apply step_01_token_raise_inv in He.
Qed.

(** ** [step_04] *)

Section step_04_facts.
Context (events : string → list Log) (is_uniswap is_balancer : string → bool).

Local Abbreviation resolved := (resolves events is_uniswap is_balancer).
Local Abbreviation passes :=
  (λ contract : string * Z,
     sum_values (replacement_of events contract.1 contract.2) ≤ contract.2).
Local Abbreviation entry :=
  (λ contract : string * Z,
     (contract.1, replacement_of events contract.1 contract.2)).

Lemma step_04_contract_eval replacements address value :
  step_04_contract events is_uniswap is_balancer replacements (address, value)
  = if resolved address
    then if bool_decide (passes (address, value))
         then Ok (replacements ++ [entry (address, value)])
         else Raise (AssertionError "no inflation ser")
    else Ok replacements.
Proof.
  unfold step_04_contract, resolves.
  destruct (is_uniswap address || is_balancer address); simpl; [|done].
  destruct (Z.eqb_spec (sum_values (transfers_to_balances events address)) 0)
    as [Hs|Hs]; simpl.
  - unfold pool_replacement. by rewrite decide_True.
  - rewrite pool_replacement_eval by done. simpl.
    unfold replacement_of. by case_bool_decide.
Qed.

Lemma step_04_loop_eval contracts replacements :
  for_each (step_04_contract events is_uniswap is_balancer) replacements
    contracts
  = if decide (Forall passes (filter (λ c, resolved c.1 = true) contracts))
    then Ok (replacements
             ++ (entry <$> filter (λ c, resolved c.1 = true) contracts))
    else Raise (AssertionError "no inflation ser").
Proof.
  revert replacements.
  induction contracts as [|[address value] contracts IH];
    intros replacements; cbn [for_each].
  - rewrite filter_nil, decide_True by constructor. by rewrite app_nil_r.
  - rewrite step_04_contract_eval, filter_cons. cbn [fst].
    destruct (resolved address) eqn:Hr.
    + destruct (decide (true = true)) as [_|?]; [|done].
      case_bool_decide as Hp.
      * cbn [mbind result_bind]. rewrite IH.
        destruct (decide (Forall passes (filter _ contracts))) as [Hall|Hall].
        -- rewrite decide_True by (by constructor).
           by rewrite fmap_cons, <- app_assoc.
        -- rewrite decide_False; [done|]. by intros [_ ?]%Forall_cons.
      * cbn [mbind result_bind].
        rewrite decide_False; [done|]. by intros [? _]%Forall_cons.
    + destruct (decide (false = true)) as [?|_]; [done|].
      cbn [mbind result_bind]. apply IH.
Qed.

End step_04_facts.

(** X7: the whole behaviour of [step_04]. Its result lists, in the order
    of [contracts], exactly the recognized pools with a non-zero share
    supply, each with one sub-amount for every share holder of the pool,
    [share * value / supply] rounded toward zero (holders given 0
    included); it raises the assertion error as soon as the sub-amounts of
    one of these pools add up to more than the pool's value, and raises
    nothing else. *)
Theorem X7_step_04_behaviour events is_uniswap is_balancer
    (contracts : list (string * Z)) :
  step_04 events is_uniswap is_balancer contracts
  = if decide (Forall
                 (λ contract : string * Z,
                    sum_values (replacement_of events contract.1 contract.2)
                    ≤ contract.2)
                 (filter (λ c, resolves events is_uniswap is_balancer c.1 = true)
                    contracts))
    then Ok ((λ contract : string * Z,
                (contract.1, replacement_of events contract.1 contract.2))
             <$> filter (λ c, resolves events is_uniswap is_balancer c.1 = true)
                   contracts)
    else Raise (AssertionError "no inflation ser").
Proof. unfold step_04. by rewrite step_04_loop_eval. Qed.

(** ** [step_05] *)

Lemma sum_values_add_all (balances additions : gmap string Z) :
  sum_values (add_all balances additions)
  = sum_values balances + sum_values additions.
Proof.
  unfold add_all.
  apply (map_fold_weak_ind (λ r (additions : gmap string Z),
    sum_values r = sum_values balances + sum_values additions)).
  - rewrite sum_values_empty. lia.
  - intros key balance m r Hkey IH.
    rewrite sum_values_counter_add, sum_values_insert, IH by done. lia.
Qed.

Lemma credited_cons user remove additions replacements :
  credited user ((remove, additions) :: replacements)
  = default 0 (additions !! user) + credited user replacements.
Proof. reflexivity. Qed.

(** What [step_05] leaves for a holder that is not one of the pools. *)
Lemma step_05_lookup replacements (balances : gmap string Z) :
  NoDup replacements.*1 →
  (∀ remove, remove ∈ replacements.*1 → is_Some (balances !! remove)) →
  ∃ out, step_05 balances replacements = Ok out ∧
    ∀ user, user ∉ replacements.*1 →
      out !! user =
        if decide (balances !! user = None ∧
                   Forall (λ item, item.2 !! user = None) replacements)
        then None
        else Some (default 0 (balances !! user) + credited user replacements).
Proof.
  unfold step_05. revert balances.
  induction replacements as [|[remove additions] replacements IH];
    intros balances Hnd Hin; cbn [for_each].
  - eexists. split; [done|]. intros user _. unfold credited. cbn [foldr].
    destruct (decide _) as [[Hb _]|Hno]; [done|].
    destruct (balances !! user) as [v|] eqn:Hv; simpl; [f_equal; lia|].
    destruct Hno. by split.
  - rewrite fmap_cons in Hnd, Hin. cbn [fst] in Hnd, Hin.
    apply NoDup_cons in Hnd as [Hfresh Hnd].
    destruct (Hin remove) as [v Hv]; [by apply elem_of_cons; left|].
    rewrite (step_05_replacement_ok _ _ _ _ Hv). cbn [mbind result_bind].
    destruct (IH (add_all (delete remove balances) additions) Hnd)
      as (out & -> & Hout).
    { intros other Hother.
      destruct (Hin other) as [w Hw]; [by apply elem_of_cons; right|].
      assert (remove ≠ other) by (intros ->; done).
      rewrite add_all_lookup, lookup_delete_ne, Hw by done.
      by destruct (additions !! other). }
    exists out. split; [done|]. intros user Huser.
    rewrite fmap_cons in Huser. cbn [fst] in Huser.
    apply not_elem_of_cons in Huser as [Hne Huser].
    rewrite (Hout user Huser), add_all_lookup, lookup_delete_ne by done.
    rewrite credited_cons.
    destruct (additions !! user) as [credit|] eqn:Hcredit;
      cbn [default from_option id].
    + rewrite decide_False by (by intros [? _]).
      rewrite decide_False.
      * f_equal. lia.
      * intros [_ Hall%Forall_cons]. simpl in Hall. destruct Hall. congruence.
    + destruct (decide (balances !! user = None ∧ Forall _ replacements))
        as [[Hb Hall]|Hno].
      * rewrite decide_True; [done|]. split; [done|]. by constructor.
      * rewrite decide_False; [f_equal; lia|].
        intros [Hb [_ Hall]%Forall_cons]. by apply Hno.
Qed.

Lemma removed_value_ext (balances1 balances2 : gmap string Z) replacements :
  (∀ key, key ∈ replacements.*1 → balances1 !! key = balances2 !! key) →
  removed_value balances1 replacements = removed_value balances2 replacements.
Proof.
  induction replacements as [|[remove additions] replacements IH];
    intros Hext; [done|].
  unfold removed_value in *. cbn [foldr fst].
  rewrite IH, (Hext remove); [done|by apply elem_of_cons; left|].
  intros key Hkey. apply Hext. by apply elem_of_cons; right.
Qed.

(** [step_05] on pools that are holders of the table and share holders of
    no pool of the list: the pools are gone and the total of the table
    changes by the sub-amounts less the values of the pools. *)
Lemma step_05_total replacements (balances : gmap string Z) :
  NoDup replacements.*1 →
  (∀ remove, remove ∈ replacements.*1 → is_Some (balances !! remove)) →
  no_cross_credit replacements →
  ∃ out, step_05 balances replacements = Ok out ∧
    sum_values out
    = sum_values balances - removed_value balances replacements
      + added_value replacements ∧
    ∀ remove, remove ∈ replacements.*1 → out !! remove = None.
Proof.
  unfold step_05. revert balances.
  induction replacements as [|[remove additions] replacements IH];
    intros balances Hnd Hin Hcross; cbn [for_each].
  - eexists. split; [done|]. split; [simpl; lia|].
    by intros ? ?%elem_of_nil.
  - rewrite fmap_cons in Hnd, Hin. cbn [fst] in Hnd, Hin.
    apply NoDup_cons in Hnd as [Hfresh Hnd].
    destruct (Hin remove) as [v Hv]; [by apply elem_of_cons; left|].
    rewrite (step_05_replacement_ok _ _ _ _ Hv). cbn [mbind result_bind].
    set (mid := add_all (delete remove balances) additions).
    assert (∀ key, key ∈ remove :: replacements.*1 → additions !! key = None)
      as Hadd.
    { intros key Hkey.
      apply (Hcross (remove, additions) key); [by apply elem_of_cons; left|].
      by rewrite fmap_cons. }
    assert (∀ key, key ∈ replacements.*1 → mid !! key = balances !! key)
      as Hmid.
    { intros key Hkey. subst mid.
      assert (remove ≠ key) by (intros ->; done).
      rewrite add_all_lookup, lookup_delete_ne by done.
      rewrite Hadd; [done|]. by apply elem_of_cons; right. }
    assert (no_cross_credit replacements) as Hcross'.
    { intros item key Hitem Hkey. apply Hcross.
      - by apply elem_of_cons; right.
      - rewrite fmap_cons. by apply elem_of_cons; right. }
    destruct (IH mid Hnd) as (out & Hstep & Hsum & Hgone); [|done|].
    { intros key Hkey. rewrite (Hmid key Hkey). apply Hin.
      by apply elem_of_cons; right. }
    exists out. split; [done|]. split.
    + rewrite Hsum, (removed_value_ext mid balances) by done.
      subst mid. rewrite sum_values_add_all.
      pose proof (sum_values_delete balances remove) as Hdel.
      rewrite Hv in Hdel. simpl in Hdel. unfold removed_value, added_value.
      cbn [foldr fst snd default from_option id]. rewrite Hv. simpl. lia.
    + intros key [->|Hkey]%elem_of_cons; [|by apply Hgone].
      destruct (step_05_lookup replacements mid Hnd) as (out' & Hstep' & Hlook).
      { intros key Hkey. rewrite (Hmid key Hkey). apply Hin.
        by apply elem_of_cons; right. }
      unfold step_05 in Hstep'. rewrite Hstep in Hstep'.
      assert (out' = out) as -> by congruence.
      cbn [fst]. rewrite (Hlook remove Hfresh).
      rewrite decide_True; [done|]. split.
      * subst mid. rewrite add_all_lookup, lookup_delete_eq.
        rewrite Hadd; [done|]. by apply elem_of_cons; left.
      * apply Forall_forall. intros item Hitem. apply Hcross.
        -- by apply elem_of_cons; right.
        -- rewrite fmap_cons. by apply elem_of_cons; left.
Qed.

(** X8: [step_05] returns whenever the pools to replace are distinct
    holders of the table. A holder that is not one of these pools ends
    with its value, or 0 if it had none, plus every sub-amount that a pool
    assigns to it; it has no entry only if it had none and no pool lists
    it. *)
Theorem X8_step_05_merges_credits replacements (balances : gmap string Z) :
  NoDup replacements.*1 →
  (∀ remove, remove ∈ replacements.*1 → is_Some (balances !! remove)) →
  ∃ out, step_05 balances replacements = Ok out ∧
    ∀ user, user ∉ replacements.*1 →
      out !! user =
        if decide (balances !! user = None ∧
                   Forall (λ item, item.2 !! user = None) replacements)
        then None
        else Some (default 0 (balances !! user) + credited user replacements).
Proof.
  intros Hnd Hin.
  destruct (step_05_lookup replacements balances Hnd Hin) as (out & Hout & Hlook).
  exists out. split; [done|]. intros user Huser. by apply Hlook.
Qed.

Lemma X8_step_05_merges_witness :
  ∃ out, step_05 balances_X9 replacements_X9 = Ok out ∧
    ∀ user, user ∉ replacements_X9.*1 →
      out !! user =
        if decide (balances_X9 !! user = None ∧
                   Forall (λ item, item.2 !! user = None) replacements_X9)
        then None
        else Some (default 0 (balances_X9 !! user)
                   + credited user replacements_X9).
Proof.
  apply (X8_step_05_merges_credits replacements_X9 balances_X9).
  - by_compute.
  - apply Forall_forall. by_compute.
Defined.

(** X9: when moreover no pool of the list is a share holder of a pool of
    the list, the pools have no entry in the result of [step_05], and the
    total of the table is the total before, less the values of the pools,
    plus the sub-amounts that replace them. *)
Theorem X9_step_05_total replacements (balances : gmap string Z) :
  NoDup replacements.*1 →
  (∀ remove, remove ∈ replacements.*1 → is_Some (balances !! remove)) →
  no_cross_credit replacements →
  ∃ out, step_05 balances replacements = Ok out ∧
    sum_values out
    = sum_values balances - removed_value balances replacements
      + added_value replacements ∧
    ∀ remove, remove ∈ replacements.*1 → out !! remove = None.
Proof.
  intros Hnd Hin Hcross.
  destruct (step_05_total replacements balances Hnd Hin Hcross)
    as (out & Hout & Hsum & Hgone).
  exists out. split; [done|]. split; [done|]. intros remove Hremove.
  by apply Hgone.
Qed.

Lemma X9_step_05_total_witness :
  ∃ out, step_05 balances_X9 replacements_X9 = Ok out ∧
    sum_values out
    = sum_values balances_X9 - removed_value balances_X9 replacements_X9
      + added_value replacements_X9 ∧
    ∀ remove, remove ∈ replacements_X9.*1 → out !! remove = None.
Proof.
  apply (X9_step_05_total replacements_X9 balances_X9).
  - by_compute.
  - apply Forall_forall. by_compute.
  - intros item key Hitem Hkey. unfold replacements_X9 in Hitem, Hkey.
    apply list_elem_of_singleton in Hitem, Hkey. subst. by vm_compute.
Defined.

(** X10: [step_05] raises KeyError when a pool to replace is not a holder
    of the table and no pool of the list adds it. The key reported is the
    first pool whose [pop] fails: the replacements before it are carried
    out and leave a table without that key. It is the pool in question, or
    one that stands before it in the list; the pool in question is not
    among the pools replaced before the failure. *)
Theorem X10_step_05_missing_pool replacements (balances : gmap string Z) key :
  key ∈ replacements.*1 →
  balances !! key = None →
  Forall (λ item, item.2 !! key = None) replacements →
  ∃ before missing additions after table,
    replacements = before ++ (missing, additions) :: after ∧
    (key ∉ before.*1) ∧
    key ∈ missing :: after.*1 ∧
    step_05 balances before = Ok table ∧
    table !! missing = None ∧
    step_05 balances replacements = Raise (KeyError missing).
Proof.
  unfold step_05. revert balances.
  induction replacements as [|[remove additions] replacements IH];
    intros balances Hkey Hnone Hall; [by apply elem_of_nil in Hkey|].
  rewrite fmap_cons in Hkey. cbn [fst] in Hkey.
  apply Forall_cons in Hall as [Hadd Hall]. simpl in Hadd.
  destruct (balances !! remove) as [v|] eqn:Hv.
  - apply elem_of_cons in Hkey as [->|Hkey]; [congruence|].
    assert (remove ≠ key) as Hne by congruence.
    destruct (IH (add_all (delete remove balances) additions))
      as (before & missing & additions' & after & table
          & -> & Hfresh & Hpos & Hbefore & Hmissing & Hraise); [done| |done|].
    { by rewrite add_all_lookup, Hadd, lookup_delete_ne. }
    exists ((remove, additions) :: before), missing, additions', after, table.
    split; [done|]. split; [|split; [done|]].
    { rewrite fmap_cons. cbn [fst]. apply not_elem_of_cons. by split. }
    split; [|split; [done|]].
    + cbn [for_each]. rewrite (step_05_replacement_ok _ _ _ _ Hv).
      by cbn [mbind result_bind].
    + change (((remove, additions) :: before) ++ (missing, additions') :: after)
        with ((remove, additions) :: (before ++ (missing, additions') :: after)).
      cbn [for_each]. rewrite (step_05_replacement_ok _ _ _ _ Hv).
      by cbn [mbind result_bind].
  - exists [], remove, additions, replacements, balances.
    split; [done|]. split; [apply not_elem_of_nil|]. split; [done|].
    split; [done|]. split; [done|].
    cbn [app for_each]. unfold step_05_replacement. by rewrite Hv.
Qed.

Lemma X10_step_05_missing_witness :
  ∃ before missing additions after table,
    replacements_X9 ++ [("0xZ", ∅)]
      = before ++ (missing, additions) :: after ∧
    ("0xZ" ∉ before.*1) ∧
    "0xZ" ∈ missing :: after.*1 ∧
    step_05 balances_X9 before = Ok table ∧
    table !! missing = None ∧
    step_05 balances_X9
      (replacements_X9 ++ [("0xZ", ∅)]) = Raise (KeyError missing).
Proof.
  apply (X10_step_05_missing_pool (replacements_X9 ++ [("0xZ", ∅)])
           balances_X9 "0xZ").
  - by_compute.
  - by vm_compute.
  - by repeat constructor.
Defined.

(** ** [step_03], [step_04] and [step_05] together *)

Lemma added_le_removed events (balances : gmap string Z)
    (contracts : list (string * Z)) :
  Forall (λ contract : string * Z,
            sum_values (replacement_of events contract.1 contract.2)
            ≤ contract.2) contracts →
  (∀ contract, contract ∈ contracts →
               balances !! contract.1 = Some contract.2) →
  added_value ((λ contract : string * Z,
                  (contract.1, replacement_of events contract.1 contract.2))
               <$> contracts)
  ≤ removed_value balances
      ((λ contract : string * Z,
          (contract.1, replacement_of events contract.1 contract.2))
       <$> contracts).
Proof.
  induction 1 as [|contract contracts Hpass _ IH]; intros Hin; [done|].
  rewrite fmap_cons. unfold added_value, removed_value in *.
  cbn [foldr fst snd].
  rewrite (Hin contract) by (by apply elem_of_cons; left). simpl.
  assert (∀ c, c ∈ contracts → balances !! c.1 = Some c.2) as Hin'
    by (intros c Hc; apply Hin; by apply elem_of_cons; right).
  specialize (IH Hin'). lia.
Qed.

(** X11: the contracts found by [step_03], in whatever order the dict has
    them, resolved by [step_04], are merged by [step_05] without a
    KeyError; and unless a resolved pool holds shares of a resolved pool,
    the resolved pools are gone from the merged table and its total is not
    above the total before: the pool split creates no value. *)
Theorem X11_resolved_pools_merge events is_uniswap is_balancer getCode
    (balances : gmap string Z) contracts replacements :
  contracts ≡ₚ map_to_list (step_03 getCode balances) →
  step_04 events is_uniswap is_balancer contracts = Ok replacements →
  ∃ out, step_05 balances replacements = Ok out ∧
    (no_cross_credit replacements →
     sum_values out ≤ sum_values balances ∧
     ∀ pool, pool ∈ replacements.*1 → out !! pool = None).
Proof.
  intros Hperm. unfold step_04. rewrite step_04_loop_eval.
  destruct (decide _) as [Hpass|]; [|done]. rewrite app_nil_l.
  intros [= <-].
  set (resolved := filter _ contracts) in *.
  set (entry := λ contract : string * Z,
                  (contract.1, replacement_of events contract.1 contract.2)).
  assert ((entry <$> resolved).*1 = resolved.*1) as Hkeys
    by (rewrite <- list_fmap_compose; done).
  assert (∀ contract, contract ∈ resolved →
                      balances !! contract.1 = Some contract.2) as Hin.
  { intros [address value] Hc. subst resolved.
    apply list_elem_of_filter in Hc as [_ Hc]. rewrite Hperm in Hc.
    apply elem_of_map_to_list in Hc. unfold step_03 in Hc.
    by apply map_lookup_filter_Some in Hc as [? _]. }
  assert (NoDup (entry <$> resolved).*1) as Hnd.
  { rewrite Hkeys. apply (sublist_NoDup _ contracts.*1).
    - rewrite Hperm. apply NoDup_fst_map_to_list.
    - apply fmap_sublist, sublist_filter. }
  assert (∀ remove, remove ∈ (entry <$> resolved).*1 →
                    is_Some (balances !! remove)) as Hpresent.
  { intros remove. rewrite Hkeys.
    intros (contract & -> & Hc)%list_elem_of_fmap. rewrite (Hin _ Hc). eauto. }
  destruct (step_05_lookup (entry <$> resolved) balances Hnd Hpresent)
    as (out & Hout & _).
  exists out. split; [done|]. intros Hcross.
  destruct (step_05_total (entry <$> resolved) balances Hnd Hpresent Hcross)
    as (out' & Hout' & Hsum & Hgone).
  assert (out' = out) as -> by congruence. split; [|done].
  pose proof (added_le_removed events balances resolved Hpass Hin).
  unfold entry in *. lia.
Qed.

Lemma X11_resolved_pools_witness :
  ∃ out,
    step_05 balances_C10 [("0xP", replacement_of events_C4 "0xP" 10)] = Ok out ∧
    (no_cross_credit [("0xP", replacement_of events_C4 "0xP" 10)] →
     sum_values out ≤ sum_values balances_C10 ∧
     ∀ pool, pool ∈ [("0xP", replacement_of events_C4 "0xP" 10)].*1 →
             out !! pool = None).
Proof.
  apply (X11_resolved_pools_merge events_C4 is_uniswap_C10 (λ _, false)
           getCode_X11 balances_C10 [("0xP", 10)]).
  - by vm_compute.
  - by vm_compute.
Defined.

(** ** [step_06] *)

(** A comprehension whose body raises [e] on every value raises [e], unless
    the dict is empty. *)
Lemma dict_comp_raise (f : Z → result Z) e (d : gmap string Z) :
  (∀ v, f v = Raise e) → d ≠ ∅ → dict_comp f d = Raise e.
Proof.
  intros Hf. unfold dict_comp.
  set (body := λ (k : string) v (acc : result (gmap string Z)),
                 out ← acc; y ← f v; mret (<[k:=y]> out)).
  assert (d = ∅ ∧ map_fold body (Ok ∅) d = Ok ∅ ∨
          map_fold body (Ok ∅) d = Raise e) as [[-> _]|H]; [|done|done].
  apply (map_fold_weak_ind (λ r (d : gmap string Z),
           d = ∅ ∧ r = Ok ∅ ∨ r = Raise e)).
  - by left.
  - intros k v m r _ [[_ ->] | ->]; right; unfold body; simpl; [|done].
    by rewrite Hf.
Qed.

(** X12: the whole behaviour of [step_06], for any table. With [S] the
    total of the whole table: if a holder passes the 1 ether threshold and
    [S] is zero, it raises ZeroDivisionError; otherwise every holder that
    passes the threshold is allocated [v * T / S] rounded toward zero and
    the others nothing, and the allocations are returned if they add up to
    at most [T], the assertion error raised if not. *)
Theorem X12_step_06_behaviour (balances : gmap string Z) :
  step_06 balances =
    let total := sum_values balances in
    let kept := valfilter (λ value, Wei_ether 1 <=? value) balances in
    let pro_rata := (λ v, v * DISTRIBUTION_AMOUNT ÷ total) <$> kept in
    if decide (kept ≠ ∅ ∧ total = 0) then Raise ZeroDivisionError
    else if bool_decide (sum_values pro_rata ≤ DISTRIBUTION_AMOUNT)
         then Ok pro_rata
         else Raise (AssertionError "extravagant expenses ser").
Proof.
  unfold step_06, pro_rata_distribution. cbv zeta.
  set (total := sum_values balances).
  set (kept := valfilter _ balances).
  destruct (decide (kept ≠ ∅ ∧ total = 0)) as [[Hne Hz]|Hok].
  - rewrite (dict_comp_raise _ ZeroDivisionError); [done| |done].
    intros v. by rewrite Hz.
  - rewrite (dict_comp_ok _ (λ v, v * DISTRIBUTION_AMOUNT ÷ total)).
    + simpl. case_bool_decide as Hle.
      * apply Z.leb_le in Hle. by rewrite Hle.
      * apply Z.leb_nle in Hle. by rewrite Hle.
    + intros k v Hk. apply pro_rata_share_quot. intros Hz. apply Hok.
      split; [|done]. intros Hempty. by rewrite Hempty, lookup_empty in Hk.
Qed.

Lemma sum_values_le_size (d : gmap string Z) c :
  (∀ k v, d !! k = Some v → v ≤ c) → sum_values d ≤ c * Z.of_nat (size d).
Proof.
  induction d as [|k v d Hk IH] using map_ind; intros Hd.
  - rewrite sum_values_empty, map_size_empty. lia.
  - rewrite sum_values_insert, map_size_insert_None by done.
    assert (v ≤ c) by (apply (Hd k); by rewrite lookup_insert_eq).
    assert (sum_values d ≤ c * Z.of_nat (size d)); [|lia].
    apply IH. intros j w Hj. apply (Hd j). rewrite lookup_insert_ne; [done|].
    intros ->. congruence.
Qed.

(** X13: on a table of non-negative values [step_06] is fair: no allocation
    is negative or above the distribution amount, and of two holders in the
    result the one with the larger value never gets the smaller
    allocation (so equal values get equal allocations). *)
Theorem X13_allocation_is_monotone amount threshold (balances : gmap string Z) :
  0 ≤ amount → 0 < threshold →
  (∀ k v, balances !! k = Some v → 0 ≤ v) →
  ∃ out, pro_rata_distribution amount threshold balances = Ok out ∧
    (∀ k a, out !! k = Some a → 0 ≤ a ≤ amount) ∧
    ∀ k1 k2 v1 v2 a1 a2,
      balances !! k1 = Some v1 → balances !! k2 = Some v2 →
      out !! k1 = Some a1 → out !! k2 = Some a2 →
      v1 ≤ v2 → a1 ≤ a2.
Proof.
  intros Ha Ht Hnn.
  destruct (pro_rata_distribution_ok amount threshold balances) as [-> _];
    [done..|].
  eexists. split; [done|].
  set (total := sum_values balances).
  assert (∀ k v a,
    ((λ v, v * amount / total)
       <$> valfilter (λ value, threshold <=? value) balances) !! k = Some a →
    balances !! k = Some v → a = v * amount / total ∧ 0 < total ∧ v ≤ total)
    as Hlook.
  { intros k v a. rewrite lookup_fmap.
    intros (w & [Hw Hle%Z.leb_le]%valfilter_lookup_Some & ->)%fmap_Some Hv.
    assert (w = v) as -> by congruence.
    pose proof (sum_values_lookup_le balances k v Hnn Hv). subst total.
    lia. }
  split.
  - intros k a Ha'.
    assert (∃ v, balances !! k = Some v) as [v Hv].
    { rewrite lookup_fmap in Ha'.
      apply fmap_Some in Ha' as (w & [? _]%valfilter_lookup_Some & _). eauto. }
    destruct (Hlook k v a Ha' Hv) as (-> & Hpos & Hle).
    specialize (Hnn k v Hv). split.
    + apply Z.div_pos; [nia|done].
    + apply Z.div_le_upper_bound; [done|]. nia.
  - intros k1 k2 v1 v2 a1 a2 Hv1 Hv2 Ha1 Ha2 Hle.
    destruct (Hlook k1 v1 a1 Ha1 Hv1) as (-> & Hpos & _).
    destruct (Hlook k2 v2 a2 Ha2 Hv2) as (-> & _ & _).
    apply Z.div_le_mono; [done|]. nia.
Qed.

Lemma X13_allocation_witness :
  ∃ out, step_06 table_X13 = Ok out ∧
    (∀ k a, out !! k = Some a → 0 ≤ a ≤ DISTRIBUTION_AMOUNT) ∧
    ∀ k1 k2 v1 v2 a1 a2,
      table_X13 !! k1 = Some v1 → table_X13 !! k2 = Some v2 →
      out !! k1 = Some a1 → out !! k2 = Some a2 →
      v1 ≤ v2 → a1 ≤ a2.
Proof.
  apply (X13_allocation_is_monotone DISTRIBUTION_AMOUNT (Wei_ether 1)
           table_X13).
  - by vm_compute.
  - by vm_compute.
  - apply (bool_decide_unpack (map_Forall (λ _ v, 0 ≤ v) table_X13)).
    by vm_compute.
Defined.

(** X14: when no holder of a non-empty table of non-negative values is
    below the threshold, what [step_06] leaves undistributed is less than
    one unit per holder: the allocations add up to more than [T] minus the
    number of holders. *)
Theorem X14_rounding_loss_is_small amount threshold (balances : gmap string Z) :
  0 ≤ amount → 0 < threshold →
  balances ≠ ∅ →
  (∀ k v, balances !! k = Some v → threshold ≤ v) →
  ∃ out, pro_rata_distribution amount threshold balances = Ok out ∧
    amount - Z.of_nat (size balances) < sum_values out ≤ amount.
Proof.
  intros Ha Ht Hne Hall.
  assert (∀ k v, balances !! k = Some v → 0 ≤ v) as Hnn
    by (intros k v Hv%Hall; lia).
  destruct (pro_rata_distribution_ok amount threshold balances)
    as [-> Hle]; [done..|].
  eexists. split; [done|]. split; [|done].
  assert (valfilter (λ value, threshold <=? value) balances = balances) as Hkept.
  { apply map_eq. intros k. unfold valfilter. rewrite map_lookup_filter.
    destruct (balances !! k) as [v|] eqn:Hv; simpl; [|done].
    rewrite option_guard_True; [done|]. simpl. apply Z.leb_le. eauto. }
  rewrite Hkept in *.
  set (total := sum_values balances) in *.
  assert (0 < total) as Hpos.
  { destruct (map_choose balances Hne) as (k & v & Hv).
    pose proof (sum_values_lookup_le balances k v Hnn Hv).
    specialize (Hall k v Hv). subst total. lia. }
  pose proof (split_defect amount total balances Hpos) as Hdef.
  fold total in Hdef.
  assert (sum_values ((λ v, (v * amount) mod total) <$> balances)
          ≤ (total - 1) * Z.of_nat (size (balances))) as Hrem.
  { rewrite <- (map_size_fmap (λ v, (v * amount) mod total) balances).
    apply sum_values_le_size. intros k r.
    rewrite lookup_fmap. intros (v & _ & ->)%fmap_Some.
    pose proof (Z.mod_pos_bound (v * amount) total Hpos). lia. }
  assert (0 < Z.of_nat (size balances)).
  { destruct (decide (size balances = 0%nat)) as [Hz%map_size_empty_iff|];
      [done|lia]. }
  nia.
Qed.

Lemma X14_rounding_loss_witness :
  ∃ out, step_06 table_X13 = Ok out ∧
    DISTRIBUTION_AMOUNT - Z.of_nat (size table_X13) < sum_values out
    ≤ DISTRIBUTION_AMOUNT.
Proof.
  apply (X14_rounding_loss_is_small DISTRIBUTION_AMOUNT (Wei_ether 1)
           table_X13).
  - by vm_compute.
  - by vm_compute.
  - by vm_compute.
  - apply (bool_decide_unpack
             (map_Forall (λ _ v, Wei_ether 1 ≤ v) table_X13)).
    by vm_compute.
Defined.

(** ** [MerkleTree] *)

Lemma index_not_elem_of l x : x ∉ l → MerkleTree.index l x = Raise ValueError.
Proof.
  induction l as [|y l IH]; [done|]. intros [Hne Hx]%not_elem_of_cons.
  simpl. rewrite decide_False by done. by rewrite IH.
Qed.

(** X15: [get_proof] returns a proof exactly for the elements whose hash
    is the hash of an element of the tree, and raises ValueError, from
    [index], for every other one. *)
Theorem X15_get_proof_of_members_only keccak (els : list MerkleTree.bytes) el :
  ((∃ proof, MerkleTree.get_proof keccak (MerkleTree.new keccak els) el
             = Ok proof) ↔ keccak el ∈ keccak <$> els) ∧
  (MerkleTree.get_proof keccak (MerkleTree.new keccak els) el
     = Raise ValueError ↔ keccak el ∉ keccak <$> els).
Proof.
  unfold MerkleTree.get_proof, MerkleTree.new.
  cbn [MerkleTree.elements MerkleTree.layers].
  set (elements := MerkleTree.sorted (MerkleTree.set_of (keccak <$> els))).
  destruct (decide (keccak el ∈ keccak <$> els)) as [Hin|Hout].
  - assert (keccak el ∈ elements) as Hel by (by apply elem_of_sorted_set_of).
    destruct (index_elem_of _ _ Hel) as (idx & -> & _). simpl.
    split; split; try done. by eexists.
  - assert (keccak el ∉ elements) as Hel
      by (unfold elements; by rewrite elem_of_sorted_set_of).
    rewrite (index_not_elem_of _ _ Hel). simpl.
    split; split; try done. by intros [? ?].
Qed.

(** X16: a tree has a root exactly when it was built from at least one
    element; [root] of the tree of no elements raises IndexError. *)
Theorem X16_root_needs_an_element keccak (els : list MerkleTree.bytes) :
  (MerkleTree.root (MerkleTree.new keccak els) = Raise IndexError ↔ els = []) ∧
  ((∃ top, MerkleTree.root (MerkleTree.new keccak els) = Ok top) ↔ els ≠ []).
Proof.
  unfold MerkleTree.root, MerkleTree.new. cbn [MerkleTree.layers].
  destruct els as [|el els].
  - split; split; try done. by intros [? ?].
  - set (elements := MerkleTree.sorted _).
    assert (keccak el ∈ elements) as Hin.
    { apply elem_of_sorted_set_of. rewrite fmap_cons. by apply elem_of_cons; left. }
    apply list_elem_of_lookup in Hin as [idx Hidx].
    destruct (proof_walk_layers keccak elements idx _ Hidx) as (top & -> & _).
    simpl. split; split; try done. intros _. by eexists.
Qed.

(** X17: the elements of a tree are the hashes of the given elements,
    each once, in increasing byte order. *)
Theorem X17_elements_sorted_and_distinct keccak (els : list MerkleTree.bytes) :
  Sorted MerkleTree.bytes_le (MerkleTree.elements (MerkleTree.new keccak els)) ∧
  NoDup (MerkleTree.elements (MerkleTree.new keccak els)) ∧
  ∀ hash, hash ∈ MerkleTree.elements (MerkleTree.new keccak els) ↔
          ∃ el, hash = keccak el ∧ el ∈ els.
Proof.
  cbn [MerkleTree.new MerkleTree.elements].
  unfold MerkleTree.sorted, MerkleTree.set_of. split; [|split].
  - apply Sorted_merge_sort, _.
  - rewrite merge_sort_Permutation. apply NoDup_remove_dups.
  - intros hash.
    by rewrite merge_sort_Permutation, elem_of_remove_dups, list_elem_of_fmap.
Qed.

(** X18: [combined_hash] does not depend on the order of its arguments,
    [None] or not: a parent is the same whichever child is on the left. *)
Theorem X18_combined_hash_comm keccak (a b : option MerkleTree.bytes) :
  MerkleTree.combined_hash keccak a b = MerkleTree.combined_hash keccak b a.
Proof.
  destruct a as [a|], b as [b|]; simpl; try done.
  by rewrite sorted_pair_comm.
Qed.

Section merkle_shape.
Context (keccak : MerkleTree.bytes → MerkleTree.bytes).

Local Abbreviation get_next_layer := (MerkleTree.get_next_layer keccak).
Local Abbreviation get_layers := (MerkleTree.get_layers keccak).

Lemma get_layers_head layer : get_layers layer !! 0%nat = Some layer.
Proof. rewrite get_layers_unfold. by destruct (decide _). Qed.

Lemma get_layers_tail layer :
  tail (get_layers layer) =
    if decide (1 < length layer)%nat then get_layers (get_next_layer layer)
    else [].
Proof. rewrite get_layers_unfold. by destruct (decide _). Qed.

(** Every layer but the last has more than one item and is followed by its
    next layer; the last has at most one item. *)
Lemma get_layers_chain layer i l :
  get_layers layer !! i = Some l →
  match get_layers layer !! S i with
  | Some l' => (1 < length l)%nat ∧ l' = get_next_layer l
  | None => (length l ≤ 1)%nat
  end.
Proof.
  remember (length layer) as n eqn:Hn. revert layer Hn i l.
  induction (lt_wf n) as [n _ IH]; intros layer -> i l.
  rewrite get_layers_unfold.
  destruct (decide (1 < length layer)%nat) as [Hlong|Hshort].
  - destruct i as [|i]; cbn [lookup list_lookup].
    + intros [= <-]. rewrite get_layers_head. done.
    + apply (IH (length (get_next_layer layer))); [|done].
      rewrite get_next_layer_length.
      apply Nat.Div0.div_lt_upper_bound. lia.
  - destruct i as [|i]; [|done]. intros [= <-]. simpl. lia.
Qed.

Lemma get_proof_loop_length layer idx :
  (idx < length layer)%nat →
  (length (MerkleTree.get_proof_loop (get_layers layer) idx)
   < length (get_layers layer))%nat.
Proof.
  remember (length layer) as n eqn:Hn. revert layer Hn idx.
  induction (lt_wf n) as [n _ IH]; intros layer -> idx Hidx.
  rewrite get_layers_unfold.
  destruct (decide (1 < length layer)%nat) as [Hlong|Hshort].
  - rewrite get_proof_loop_cons, length_app. cbn [length].
    assert (length (MerkleTree.get_proof_loop [layer] idx) ≤ 1)%nat.
    { cbn [MerkleTree.get_proof_loop]. rewrite app_nil_r.
      case_bool_decide; [|simpl; lia].
      destruct (layer !! _); simpl; lia. }
    assert (length (MerkleTree.get_proof_loop
                      (get_layers (get_next_layer layer)) (idx / 2))
            < length (get_layers (get_next_layer layer)))%nat; [|lia].
    apply (IH (length (get_next_layer layer))); [|done|].
    + rewrite get_next_layer_length.
      apply Nat.Div0.div_lt_upper_bound. lia.
    + rewrite get_next_layer_length.
      apply Nat.Div0.div_lt_upper_bound.
      pose proof (Nat.div_mod_eq (length layer + 1) 2).
      pose proof (Nat.mod_upper_bound (length layer + 1) 2). lia.
  - assert (idx = 0%nat ∧ length layer = 1%nat) as [-> Hone] by lia.
    cbn [MerkleTree.get_proof_loop Nat.even]. rewrite Hone. simpl. lia.
Qed.

(** The number of layers above the first is the logarithm of the number of
    elements, rounded up. *)
Lemma get_layers_log layer :
  (1 ≤ length layer)%nat →
  length (get_layers layer) = 1%nat ∧ length layer = 1%nat ∨
  ∃ k, length (get_layers layer) = S (S k) ∧ (2 ^ k < length layer)%nat.
Proof.
  remember (length layer) as n eqn:Hn. revert layer Hn.
  induction (lt_wf n) as [n _ IH]; intros layer -> Hpos.
  rewrite get_layers_unfold.
  destruct (decide (1 < length layer)%nat) as [Hlong|Hshort].
  - right. cbn [length].
    pose proof (get_next_layer_length keccak layer) as Hlen.
    pose proof (Nat.div_mod_eq (length layer + 1) 2) as Hdiv.
    pose proof (Nat.mod_upper_bound (length layer + 1) 2) as Hmod.
    destruct (IH (length (get_next_layer layer))) with
      (layer := get_next_layer layer) as [[-> Hone]|(k & -> & Hk)];
      [lia|done|lia| |].
    + exists 0%nat. split; [done|]. simpl. lia.
    + exists (S k). split; [done|]. rewrite Nat.pow_succ_r'. lia.
  - left. simpl. lia.
Qed.

End merkle_shape.

(** X19: the layers of a tree start with its elements; every layer with
    more than one item is followed by its next layer, which has half as
    many items, rounded up; and the layers end with the first layer of at
    most one item. *)
Theorem X19_layers_halve keccak (els : list MerkleTree.bytes) :
  let layers := MerkleTree.layers (MerkleTree.new keccak els) in
  layers !! 0%nat = Some (MerkleTree.elements (MerkleTree.new keccak els)) ∧
  ∀ i layer, layers !! i = Some layer →
    match layers !! S i with
    | Some next =>
        (1 < length layer)%nat ∧
        next = MerkleTree.get_next_layer keccak layer ∧
        length next = ((length layer + 1) / 2)%nat
    | None => (length layer ≤ 1)%nat
    end.
Proof.
  cbn [MerkleTree.new MerkleTree.layers MerkleTree.elements]. split.
  - apply get_layers_head.
  - intros i layer Hi. pose proof (get_layers_chain keccak _ i layer Hi) as H.
    destruct (_ !! S i) as [next|]; [|done].
    destruct H as [Hlong ->]. by rewrite get_next_layer_length.
Qed.

(** X20: a proof is short: with [n] elements in the tree it has fewer than
    [log2 n + 1] items, that is [2 ^ length proof < 2 * n]. *)
Theorem X20_proof_is_logarithmic keccak (els : list MerkleTree.bytes) el proof :
  MerkleTree.get_proof keccak (MerkleTree.new keccak els) el = Ok proof →
  (2 ^ length proof
   < 2 * length (MerkleTree.elements (MerkleTree.new keccak els)))%nat.
Proof.
  unfold MerkleTree.get_proof.
  cbn [MerkleTree.new MerkleTree.layers MerkleTree.elements].
  set (elements := MerkleTree.sorted _).
  destruct (MerkleTree.index elements (keccak el)) as [idx|e] eqn:Hidx;
    simpl; [|done].
  intros [= <-].
  assert (idx < length elements)%nat as Hlt.
  { destruct (decide (keccak el ∈ elements)) as [Hin|Hout].
    - destruct (index_elem_of _ _ Hin) as (idx' & Hidx' & Hl).
      assert (idx' = idx) as -> by congruence. by eapply lookup_lt_Some.
    - by rewrite index_not_elem_of in Hidx. }
  pose proof (get_proof_loop_length keccak elements idx Hlt) as Hlen.
  destruct (get_layers_log keccak elements) as [[HL Hone]|(k & HL & Hk)];
    [lia| |]; rewrite HL in Hlen.
  - assert (length (MerkleTree.get_proof_loop
                      (MerkleTree.get_layers keccak elements) idx) = 0%nat)
      as -> by lia.
    simpl. lia.
  - apply Nat.le_lt_trans with (2 ^ S k)%nat.
    + apply Nat.pow_le_mono_r; lia.
    + rewrite Nat.pow_succ_r'. lia.
Qed.

Lemma X20_proof_is_logarithmic_witness :
  ∃ proof,
    MerkleTree.get_proof keccak_toy (MerkleTree.new keccak_toy leaves_C5)
      [Byte.x09] = Ok proof ∧
    (2 ^ length proof
     < 2 * length (MerkleTree.elements (MerkleTree.new keccak_toy leaves_C5)))%nat.
Proof.
  eexists. split; [by vm_compute|].
  apply (X20_proof_is_logarithmic keccak_toy leaves_C5 [Byte.x09]).
  by vm_compute.
Defined.

(** ** [step_07] *)

Lemma mapM_result_ok {A B} (f : A → result B) l k :
  mapM f l = Ok k ↔ Forall2 (λ x y, f x = Ok y) l k.
Proof.
  revert k. induction l as [|x l IH]; intros k; simpl.
  - split; [intros [= <-]; constructor|by inversion 1].
  - split.
    + intros H. destruct (f x) as [y|e] eqn:Hx; simpl in H; [|done].
      destruct (mapM f l) as [k'|e] eqn:Hl; simpl in H; [|done].
      injection H as <-. constructor; [done|]. by apply IH.
    + inversion 1 as [|? y ? k' Hy Hk]; subst.
      apply IH in Hk. by rewrite Hy, Hk.
Qed.

Lemma mapM_result_raise {A B} (f : A → result B) l e :
  mapM f l = Raise e → ∃ x, x ∈ l ∧ f x = Raise e.
Proof.
  induction l as [|x l IH]; simpl; [done|].
  destruct (f x) as [y|e'] eqn:Hx; simpl.
  - destruct (mapM f l) as [k'|e'] eqn:Hl; simpl; [done|].
    intros [= ->]. destruct IH as (x' & Hx' & He); [done|].
    exists x'. split; [by apply elem_of_cons; right|done].
  - intros [= ->]. exists x. split; [by apply elem_of_cons; left|done].
Qed.

Lemma mapM_result_returns {A B} (f : A → result B) l :
  (∀ x, x ∈ l → ∃ y, f x = Ok y) → ∃ k, mapM f l = Ok k.
Proof.
  intros Hall. destruct (mapM f l) as [k|e] eqn:Hl; [by eexists|].
  apply mapM_result_raise in Hl as (x & Hx & He).
  destruct (Hall x Hx) as [y Hy]. congruence.
Qed.

(** The proof of an element of the tree walks to the root of the tree. *)
Lemma get_proof_walks_to_root keccak (els : list MerkleTree.bytes) el :
  el ∈ els →
  ∃ proof top,
    MerkleTree.get_proof keccak (MerkleTree.new keccak els) el = Ok proof ∧
    MerkleTree.root (MerkleTree.new keccak els) = Ok top ∧
    MerkleTree.proof_walk keccak (keccak el) proof = top.
Proof.
  intros Hel.
  set (elements := MerkleTree.sorted (MerkleTree.set_of (keccak <$> els))).
  assert (keccak el ∈ elements) as Hin
    by (apply elem_of_sorted_set_of; by apply list_elem_of_fmap_2).
  destruct (index_elem_of _ _ Hin) as (idx & Hindex & Hidx).
  destruct (proof_walk_layers keccak elements idx (keccak el) Hidx)
    as (top & Hlast & Hwalk).
  eexists _, top.
  unfold MerkleTree.get_proof, MerkleTree.root, MerkleTree.new.
  cbn [MerkleTree.elements MerkleTree.layers]. fold elements.
  rewrite Hindex, Hlast. done.
Qed.

Section step_07_facts.
Context (keccak : MerkleTree.bytes → MerkleTree.bytes).
Context (encode_abi_packed : nat * string * Z → result MerkleTree.bytes).

Local Abbreviation elements_of :=
  (imap (λ (index : nat) (item : string * Z), (index, item.1, item.2))).

Lemma elements_of_lookup (balances : list (string * Z)) i user amount :
  balances !! i = Some (user, amount) →
  elements_of balances !! i = Some (i, user, amount).
Proof. intros Hi. by rewrite list_lookup_imap, Hi. Qed.

Lemma step_07_claim_ok nodes index user amount node :
  nodes !! index = Some node →
  ∃ proof top,
    step_07_claim keccak (MerkleTree.new keccak nodes) nodes
      (index, user, amount) = Ok (user, mkClaim index amount proof) ∧
    MerkleTree.root (MerkleTree.new keccak nodes) = Ok top ∧
    MerkleTree.proof_walk keccak (keccak node) proof = top.
Proof.
  intros Hnode. unfold step_07_claim. rewrite Hnode. simpl.
  destruct (get_proof_walks_to_root keccak nodes node)
    as (proof & top & -> & Hroot & Hwalk).
  { apply list_elem_of_lookup. eauto. }
  by exists proof, top.
Qed.

(** X21: in a distribution returned by [step_07], the total is the sum of
    the amounts, there is one claim per holder, in the order of the table,
    with the holder's position as index and the holder's amount, and the
    proof of every claim walks from the hash of the holder's encoded
    [(index, account, amount)] to the Merkle root of the distribution. *)
Theorem X21_every_claim_verifies (balances : list (string * Z)) distribution :
  step_07 keccak encode_abi_packed balances = Ok distribution →
  tokenTotal distribution = sum_list balances.*2 ∧
  length (claims distribution) = length balances ∧
  ∀ i user amount, balances !! i = Some (user, amount) →
    ∃ node proof,
      encode_abi_packed (i, user, amount) = Ok node ∧
      claims distribution !! i = Some (user, mkClaim i amount proof) ∧
      MerkleTree.proof_walk keccak (keccak node) proof
      = merkleRoot distribution.
Proof.
  unfold step_07.
  destruct (mapM encode_abi_packed (elements_of balances)) as [nodes|e]
    eqn:Hnodes; simpl; [|done].
  apply mapM_result_ok in Hnodes.
  destruct (MerkleTree.root _) as [root|e] eqn:Hroot; simpl; [|done].
  destruct (mapM (step_07_claim _ _ _) _) as [items|e] eqn:Hitems;
    simpl; [|done].
  apply mapM_result_ok in Hitems. intros [= <-]. simpl.
  split; [done|]. split.
  - by rewrite <- (Forall2_length _ _ _ Hitems), length_imap.
  - intros i user amount Hi.
    pose proof (elements_of_lookup balances i user amount Hi) as Hel.
    destruct (Forall2_lookup_l _ _ _ _ _ Hnodes Hel) as (node & Hnode & Henc).
    destruct (Forall2_lookup_l _ _ _ _ _ Hitems Hel) as (item & Hitem & Hclaim).
    destruct (step_07_claim_ok nodes i user amount node Hnode)
      as (proof & top & Hclaim' & Hroot' & Hwalk).
    exists node, proof. split; [done|].
    assert (top = root) as -> by congruence.
    split; [congruence|done].
Qed.

(** X22: [step_07] returns exactly when the table has a holder and every
    [(index, account, amount)] can be encoded. On the empty table it
    raises IndexError (the tree has no root); otherwise what it raises is
    what the encoding of some holder raises. *)
Theorem X22_step_07_returns_iff (balances : list (string * Z)) :
  ((∃ distribution,
      step_07 keccak encode_abi_packed balances = Ok distribution) ↔
   balances ≠ [] ∧
   ∀ i user amount, balances !! i = Some (user, amount) →
                    ∃ node, encode_abi_packed (i, user, amount) = Ok node) ∧
  ∀ e, step_07 keccak encode_abi_packed balances = Raise e →
       balances = [] ∧ e = IndexError ∨
       ∃ i user amount, balances !! i = Some (user, amount) ∧
                        encode_abi_packed (i, user, amount) = Raise e.
Proof.
  assert (∀ element, element ∈ elements_of balances →
            ∃ i user amount, balances !! i = Some (user, amount) ∧
                             element = (i, user, amount)) as Helements.
  { intros element (i & Hi)%list_elem_of_lookup.
    rewrite list_lookup_imap in Hi.
    apply fmap_Some in Hi as ([user amount] & Hi & ->). by exists i, user, amount. }
  unfold step_07.
  destruct (mapM encode_abi_packed (elements_of balances)) as [nodes|e]
    eqn:Hnodes; simpl.
  - pose proof Hnodes as Hall. apply mapM_result_ok in Hall.
    destruct (decide (balances = [])) as [->|Hne].
    + injection Hnodes as <-. split; [|intros e [= <-]; by left].
      split; [by intros [? ?]|by intros [? _]].
    + assert (∃ first, elements_of balances !! 0%nat = Some first)
        as [first Hfirst].
      { destruct balances as [|[user0 amount0] balances]; [done|].
        by eexists. }
      assert (∃ top, MerkleTree.root (MerkleTree.new keccak nodes) = Ok top)
        as [top ->].
      { destruct (Forall2_lookup_l _ _ _ 0%nat _ Hall Hfirst)
          as (node & Hnode & _).
        destruct (get_proof_walks_to_root keccak nodes node)
          as (_ & top & _ & Hroot & _); [|by eexists].
        apply list_elem_of_lookup. eauto. }
      cbn [mbind result_bind].
      destruct (mapM_result_returns
                  (step_07_claim keccak (MerkleTree.new keccak nodes) nodes)
                  (elements_of balances))
        as [items ->].
      { intros element (i & Hi)%list_elem_of_lookup.
        destruct (Forall2_lookup_l _ _ _ _ _ Hall Hi) as (node & Hnode & _).
        destruct element as [[index user] amount].
        assert (index = i) as ->.
        { rewrite list_lookup_imap in Hi.
          apply fmap_Some in Hi as (? & _ & ?). congruence. }
        destruct (step_07_claim_ok nodes i user amount node Hnode)
          as (proof & ? & -> & _). by eexists. }
      cbn [mbind result_bind]. split; [|done]. split; [intros _|by eexists].
      split; [done|]. intros i user amount Hi.
      pose proof (elements_of_lookup _ i user amount Hi) as Hel.
      destruct (Forall2_lookup_l _ _ _ _ _ Hall Hel) as (node & _ & Henc).
      by exists node.
  - apply mapM_result_raise in Hnodes as (element & Hel & He).
    destruct (Helements element Hel) as (i & user & amount & Hi & ->).
    split.
    + split; [by intros [? ?]|]. intros [_ Hall].
      destruct (Hall i user amount Hi) as [node Hnode]. congruence.
    + intros e' [= <-]. right. by exists i, user, amount.
Qed.

End step_07_facts.

Lemma X21_every_claim_witness :
  ∃ distribution,
    step_07 keccak_toy encode_toy balances_X21 = Ok distribution ∧
    tokenTotal distribution = sum_list balances_X21.*2 ∧
    length (claims distribution) = length balances_X21 ∧
    ∀ i user amount, balances_X21 !! i = Some (user, amount) →
      ∃ node proof,
        encode_toy (i, user, amount) = Ok node ∧
        claims distribution !! i = Some (user, mkClaim i amount proof) ∧
        MerkleTree.proof_walk keccak_toy (keccak_toy node) proof
        = merkleRoot distribution.
Proof.
  eexists. split; [by vm_compute|].
  apply (X21_every_claim_verifies keccak_toy encode_toy balances_X21).
  by vm_compute.
Defined.


(** ** [cached] *)

(** X23: the wrapper of [cached] is write-once. It touches no other path;
    when the artifact exists it returns the decoded artifact and leaves
    the files as they are, whatever the stage would compute; when the
    stage raises, nothing is written; when the stage returns, its result
    is returned and written, and every later run, of whatever stage
    function, returns the decoding of that artifact and changes nothing:
    it repeats the first result exactly when the codec reads back what it
    wrote. *)
Theorem X23_cached_is_write_once {A} (loads : string → result A)
    (dumps : A → string) path (func : result A) (files : gmap string string) :
  let run := cached loads dumps path func files in
  (∀ other, other ≠ path → run.2 !! other = files !! other) ∧
  (∀ text, files !! path = Some text →
     run = (loads text, files)) ∧
  (∀ e, files !! path = None → func = Raise e → run = (Raise e, files)) ∧
  (∀ result, files !! path = None → func = Ok result →
     run.1 = Ok result ∧
     run.2 !! path = Some (dumps result) ∧
     ∀ func', cached loads dumps path func' run.2
              = (loads (dumps result), run.2)).
Proof.
  unfold cached. destruct (files !! path) as [text|] eqn:Hpath.
  - simpl. split; [done|]. split; [by intros ? [= <-]|]. by split.
  - destruct func as [result|e]; simpl.
    + split; [intros other Hne; by rewrite lookup_insert_ne|].
      split; [done|]. split; [done|]. intros ? _ [= <-].
      rewrite lookup_insert_eq. done.
    + split; [done|]. split; [done|]. split; [|done]. by intros ? _ [= <-].
Qed.

(** ** [convert_to_dai] and [step_02] *)

Lemma dict_get_ok d key : key ∈ d.*1 → ∃ v, dict_get d key = Ok v.
Proof.
  induction d as [|[k v] d IH]; [by intros ?%elem_of_nil|].
  rewrite fmap_cons. simpl. intros [->|Hkey]%elem_of_cons.
  - rewrite decide_True by done. by eexists.
  - destruct (decide (k = key)); [by eexists|by apply IH].
Qed.

Lemma dict_get_raise d key e :
  dict_get d key = Raise e → e = KeyError key ∧ key ∉ d.*1.
Proof.
  induction d as [|[k v] d IH]; simpl.
  - intros [= <-]. split; [done|]. by intros ?%elem_of_nil.
  - destruct (decide (k = key)) as [|Hne]; [done|].
    intros [-> Hout]%IH. split; [done|].
    by intros [?|?]%elem_of_cons.
Qed.

Section valuation_facts.
Context (total_supply : option Z → list Byte.byte).
Context (burn_return : string → Z → Z).

Lemma convert_to_dai_ok name balance :
  name ∈ TOKENS.*1 →
  convert_to_dai burn_return name balance = Ok (dai_of burn_return name balance).
Proof.
  intros Hname. unfold dai_of, convert_to_dai.
  destruct (dict_get_ok TOKENS name Hname) as [token ->]. simpl.
  by case_bool_decide.
Qed.

Lemma convert_to_dai_raise name balance e :
  convert_to_dai burn_return name balance = Raise e →
  e = KeyError name ∧ name ∉ TOKENS.*1.
Proof.
  unfold convert_to_dai.
  destruct (dict_get TOKENS name) as [token|e'] eqn:Hget; simpl.
  - by case_bool_decide.
  - intros [= <-]. by apply dict_get_raise in Hget.
Qed.

Lemma step_02_token_ok name (dai_balances : gmap string Z) holder balance :
  name ∈ TOKENS.*1 →
  step_02_token burn_return name dai_balances (holder, balance)
  = Ok (counter_add dai_balances holder (dai_of burn_return name balance)).
Proof.
  intros Hname. unfold step_02_token. by rewrite convert_to_dai_ok.
Qed.

Lemma step_02_ledger_ok name ledger (dai_balances : gmap string Z) :
  name ∈ TOKENS.*1 →
  ∃ out,
    for_each (step_02_token burn_return name) dai_balances ledger = Ok out ∧
    ∀ user, default 0 (out !! user)
            = default 0 (dai_balances !! user)
              + ledger_dai burn_return name user ledger.
Proof.
  intros Hname. revert dai_balances.
  induction ledger as [|[holder balance] ledger IH]; intros dai_balances;
    cbn [for_each].
  - eexists. split; [done|]. intros user. simpl. lia.
  - rewrite step_02_token_ok by done. cbn [mbind result_bind].
    destruct (IH (counter_add dai_balances holder
                    (dai_of burn_return name balance)))
      as (out & -> & Hout).
    exists out. split; [done|]. intros user.
    rewrite Hout, counter_add_lookup. unfold ledger_dai.
    cbn [foldr fst snd]. repeat destruct (decide _); try lia; congruence.
Qed.

Lemma step_02_loop_ok balances (dai_balances : gmap string Z) :
  (∀ token, token ∈ balances → token.1 ∈ TOKENS.*1) →
  ∃ out,
    for_each (λ dai_balances token,
                for_each (step_02_token burn_return token.1) dai_balances
                  token.2)
      dai_balances balances = Ok out ∧
    ∀ user, default 0 (out !! user)
            = default 0 (dai_balances !! user)
              + total_dai burn_return user balances.
Proof.
  revert dai_balances.
  induction balances as [|[name ledger] balances IH];
    intros dai_balances Hnames; cbn [for_each].
  - eexists. split; [done|]. intros user. simpl. lia.
  - cbn [fst snd].
    destruct (step_02_ledger_ok name ledger dai_balances) as (mid & -> & Hmid).
    { apply (Hnames (name, ledger)). by apply elem_of_cons; left. }
    cbn [mbind result_bind].
    destruct (IH mid) as (out & -> & Hout).
    { intros token Htoken. apply Hnames. by apply elem_of_cons; right. }
    exists out. split; [done|]. intros user.
    rewrite Hout, Hmid. unfold total_dai. cbn [foldr fst snd]. lia.
Qed.

Lemma step_02_loop_raise balances (dai_balances : gmap string Z) e :
  for_each (λ dai_balances token,
              for_each (step_02_token burn_return token.1) dai_balances token.2)
    dai_balances balances = Raise e →
  ∃ name, name ∈ balances.*1 ∧ (name ∉ TOKENS.*1) ∧ e = KeyError name.
Proof.
  intros (acc & [name ledger] & Htoken & Hraise)%for_each_raise_inv.
  cbn [fst snd] in Hraise.
  apply for_each_raise_inv in Hraise as (acc' & [user balance] & _ & Hraise).
  unfold step_02_token in Hraise.
  destruct (convert_to_dai burn_return name balance) as [dai|e'] eqn:Hconv; [done|].
  simpl in Hraise. injection Hraise as <-.
  apply convert_to_dai_raise in Hconv as [-> Hout].
  exists name. split; [|done].
  apply list_elem_of_fmap. by exists (name, ledger).
Qed.

End valuation_facts.

(** X24: [convert_to_dai] knows the six tokens of [TOKENS] only: for EMN
    the value is the burn return of the balance on EMN; for each of the
    other five it is the burn return on EMN of the burn return on the
    token; for any other name it raises KeyError. *)
Theorem X24_convert_to_dai_by_token burn_return name balance :
  convert_to_dai burn_return name balance =
    match dict_get TOKENS name with
    | Ok token =>
        Ok (if decide (name = "EMN") then burn_return EMN balance
            else burn_return EMN (burn_return token balance))
    | Raise _ => Raise (KeyError name)
    end.
Proof.
  unfold convert_to_dai.
  destruct (dict_get TOKENS name) as [token|e] eqn:Hget; simpl.
  - unfold TOKENS in Hget. simpl in Hget.
    repeat (destruct (decide (_ = name)) as [<-|?];
            [injection Hget as <-; by vm_compute|]).
    done.
  - by apply dict_get_raise in Hget as [-> _].
Qed.

(** X25: with an archive node and a table of tokens of [TOKENS], [step_02]
    returns, for every holder, the sum over all tokens of the dai values
    of the holder's balances; a holder whose sum is zero has no entry. *)
Theorem X25_step_02_sums_dai_values total_supply burn_return
    (balances : list (string * list (string * Z))) :
  total_supply None ≠ total_supply (Some SNAPSHOT_BLOCK) →
  (∀ token, token ∈ balances → token.1 ∈ TOKENS.*1) →
  ∃ out, step_02 total_supply burn_return balances = Ok out ∧
    ∀ user, out !! user =
      if decide (total_dai burn_return user balances = 0) then None
      else Some (total_dai burn_return user balances).
Proof.
  intros Harchive Hnames. unfold step_02, ensure_archive_node.
  rewrite bool_decide_eq_true_2 by done. cbn [assert mbind result_bind].
  destruct (step_02_loop_ok burn_return balances ∅ Hnames) as (out & -> & Hout).
  cbn [mbind result_bind]. eexists. split; [done|]. intros user.
  rewrite valfilter_bool_lookup, Hout, lookup_empty. simpl. done.
Qed.

Lemma X25_step_02_witness :
  ∃ out, step_02 total_supply_toy burn_toy balances_X24 = Ok out ∧
    ∀ user, out !! user =
      if decide (total_dai burn_toy user balances_X24 = 0) then None
      else Some (total_dai burn_toy user balances_X24).
Proof.
  apply (X25_step_02_sums_dai_values total_supply_toy burn_toy balances_X24).
  - by vm_compute.
  - apply Forall_forall. by_compute.
Defined.

(** X26: what [step_02] raises. Without an archive node (the total supply
    at the snapshot equals the latest one) it raises the assertion error
    before any conversion; otherwise it can only raise the KeyError of a
    token name of the table that [TOKENS] does not have. *)
Theorem X26_step_02_errors total_supply burn_return
    (balances : list (string * list (string * Z))) :
  (total_supply None = total_supply (Some SNAPSHOT_BLOCK) →
   step_02 total_supply burn_return balances
   = Raise (AssertionError "this step requires an archive node")) ∧
  ∀ e, step_02 total_supply burn_return balances = Raise e →
    e = AssertionError "this step requires an archive node" ∨
    ∃ name, name ∈ balances.*1 ∧ (name ∉ TOKENS.*1) ∧ e = KeyError name.
Proof.
  unfold step_02, ensure_archive_node. case_bool_decide as Harchive.
  - cbn [assert mbind result_bind]. split; [done|]. intros e.
    destruct (for_each _ _ _) as [out|e'] eqn:Hloop; [done|].
    cbn [mbind result_bind]. intros [= <-]. right.
    by eapply step_02_loop_raise.
  - cbn [assert mbind result_bind]. split; [done|].
    intros e [= <-]. by left.
Qed.
